(** * XAUCopilot: the price-indicator tool and the news tool

    A shallow embedding of [src/xaucopilot.py].  The two [_run] methods are
    written as Rocq functions over a small model of the pandas operations
    they call ([resample], [agg], [dropna], [diff], [where], [rolling],
    [ewm], [tail], [round]) and of the two providers they talk to.

    Numbers.  A float64 cell is modelled by [float]: an exact rational, one
    of the two infinities, or NaN, with the IEEE 754 rules for the special
    values (x/0, inf-inf, NaN absorbing, comparisons with NaN false).
    Rounding error is not modelled: finite arithmetic is exact.  The two
    signed zeros are identified.

    Time.  The index of a frame is modelled by elapsed seconds counted from
    the origin from which [resample] lays out its bins: the local midnight
    that begins the day of the earliest row.  It is elapsed time, not the
    reading of the wall clock, so a daylight-saving change does not shift
    it. *)

From Stdlib Require Import Ascii String QArith Qcanon Qround.
From stdpp Require Import base decidable option list numbers strings gmap sorting.

Local Open Scope Z_scope.

(** ** Floating-point cells *)

Inductive float : Type :=
  | Fin (q : Qc)
  | PInf
  | NInf
  | NaN.

Global Instance float_eq_dec : EqDecision float.
Proof. solve_decision. Defined.

Definition zf (z : Z) : float := Fin (Qc_of_Z z).

(** Sign tests on rationals, by comparison. *)
Definition Qc_ltb (a b : Qc) : bool :=
  match (a ?= b)%Qc with Lt => true | _ => false end.
Definition Qc_eqb (a b : Qc) : bool :=
  match (a ?= b)%Qc with Eq => true | _ => false end.

Definition isna (x : float) : bool :=
  match x with NaN => true | _ => false end.
Definition notna (x : float) : bool := negb (isna x).

Definition fneg (x : float) : float :=
  match x with
  | Fin q => Fin (- q)%Qc
  | PInf => NInf
  | NInf => PInf
  | NaN => NaN
  end.

Definition fadd (x y : float) : float :=
  match x, y with
  | NaN, _ | _, NaN => NaN
  | Fin a, Fin b => Fin (a + b)%Qc
  | PInf, NInf | NInf, PInf => NaN
  | PInf, _ | _, PInf => PInf
  | NInf, _ | _, NInf => NInf
  end.

Definition fsub (x y : float) : float := fadd x (fneg y).

(** The sign of a cell: [Some true] for negative, [Some false] for
    positive, [None] for zero (and for NaN, which callers test first). *)
Definition fsign (x : float) : option bool :=
  match x with
  | Fin q => if Qc_ltb q 0 then Some true
             else if Qc_ltb 0 q then Some false else None
  | PInf => Some false
  | NInf => Some true
  | NaN => None
  end.

Definition finf (neg : bool) : float := if neg then NInf else PInf.

Definition fmul (x y : float) : float :=
  match x, y with
  | NaN, _ | _, NaN => NaN
  | Fin a, Fin b => Fin (a * b)%Qc
  | _, _ =>
      match fsign x, fsign y with
      | Some s, Some t => finf (xorb s t)
      | _, _ => NaN
      end
  end.

Definition fdiv (x y : float) : float :=
  match x, y with
  | NaN, _ | _, NaN => NaN
  | Fin a, Fin b =>
      if Qc_eqb b 0 then
        match fsign x with
        | Some s => finf s
        | None => NaN
        end
      else Fin (a / b)%Qc
  | Fin _, _ => Fin 0%Qc
  | _, Fin b => if Qc_ltb b 0 then fneg x else x
  | _, _ => NaN
  end.

(** Comparisons: every comparison with NaN is false. *)
Definition flt (x y : float) : bool :=
  match x, y with
  | NaN, _ | _, NaN => false
  | Fin a, Fin b => Qc_ltb a b
  | NInf, NInf | PInf, _ => false
  | NInf, (Fin _ | PInf) | Fin _, PInf => true
  | Fin _, NInf => false
  end.
Definition fgt (x y : float) : bool := flt y x.
Definition fne (x y : float) : bool :=
  match x, y with
  | NaN, _ | _, NaN => true
  | _, _ => negb (bool_decide (x = y))
  end.

(** ** Series (one column of a frame) *)

Abbreviation Series := (list float) (only parsing).

(** [Series.diff()]: first discrete difference; the first cell is NaN. *)
Fixpoint diff_from (prev : float) (s : Series) : Series :=
  match s with
  | [] => []
  | x :: s' => fsub x prev :: diff_from x s'
  end.
Definition diff (s : Series) : Series := diff_from NaN s.

(** [s.where(cond, other)]: keep the cell where [cond] holds, else [other]. *)
Definition where_ (cond : float -> bool) (other : float) (s : Series) : Series :=
  map (fun x => if cond x then x else other) s.

Definition fsum (s : Series) : float := foldl fadd (zf 0) s.

(** [s.rolling(window=w).mean()] with the default [min_periods = w]: the
    mean of the non-NaN cells among the last [w] cells up to and including
    position [i], NaN when fewer than [w] of them are present. *)
Definition rolling_window (w : nat) (s : Series) (i : nat) : Series :=
  drop (S i - w) (take (S i) s).
Definition rolling_mean_at (w : nat) (s : Series) (i : nat) : float :=
  let obs := filter (fun x => notna x = true) (rolling_window w s i) in
  let nobs := length obs in
  if decide (w <= nobs)%nat then fdiv (fsum obs) (zf (Z.of_nat nobs)) else NaN.
(** Before a rolling or an ewm pass pandas replaces the infinite cells of
    the series by NaN. *)
Definition isinf (x : float) : bool :=
  match x with PInf | NInf => true | _ => false end.
Definition prep_values (s : Series) : Series :=
  map (fun x => if isinf x then NaN else x) s.

Definition rolling_mean (w : nat) (s : Series) : Series :=
  map (rolling_mean_at w (prep_values s)) (seq 0 (length s)).

(** [s.ewm(span=n, adjust=False).mean()]: pandas turns the span into a
    centre of mass [com = (n-1)/2] and [alpha = 1/(1+com)], then runs one
    pass carrying the running value [weighted] and the weight [old_wt] of
    the past; with [adjust=False] the new cell has weight [alpha] and the
    weight of the past is reset to 1 after every observation. *)
Definition com_of_span (span : Z) : float := fdiv (fsub (zf span) (zf 1)) (zf 2).
Definition alpha_of_com (com : float) : float := fdiv (zf 1) (fadd (zf 1) com).

Record ewm_state := { weighted : float; old_wt : float }.

Definition ewm_step (alpha : float) (st : ewm_state) (cur : float) : ewm_state :=
  let old_wt_factor := fsub (zf 1) alpha in
  let new_wt := alpha in
  if notna (weighted st) then
    let ow := fmul (old_wt st) old_wt_factor in
    if notna cur then
      {| weighted :=
           if fne (weighted st) cur
           then fdiv (fadd (fmul ow (weighted st)) (fmul new_wt cur)) (fadd ow new_wt)
           else weighted st;
         old_wt := zf 1 |}
    else {| weighted := weighted st; old_wt := ow |}
  else if notna cur then {| weighted := cur; old_wt := old_wt st |}
  else st.

Fixpoint ewm_loop (alpha : float) (st : ewm_state) (s : Series) : Series :=
  match s with
  | [] => []
  | cur :: s' =>
      let st' := ewm_step alpha st cur in
      weighted st' :: ewm_loop alpha st' s'
  end.

Definition ewm_mean (span : Z) (s : Series) : Series :=
  let alpha := alpha_of_com (com_of_span span) in
  match prep_values s with
  | [] => []
  | x0 :: s' => x0 :: ewm_loop alpha {| weighted := x0; old_wt := zf 1 |} s'
  end.

(** [x.round(2)]: round half to even on the hundredths; the special
    values are left as they are.  numpy computes [rint(x * 100) / 100] in
    float64; here the decimal rounding is exact, so the hundredth it gives
    can differ from the printed one where [x * 100] is within float error
    of a tie or overflows.  Only what survives that difference is stated
    about rounded cells: which of them are NaN, and that rounding twice is
    rounding once. *)
Definition rint (q : Qc) : Z :=
  let f := Qfloor q in
  let r := (q - Qc_of_Z f)%Qc in
  let half := (Qc_of_Z 1 / Qc_of_Z 2)%Qc in
  if Qc_ltb r half then f
  else if Qc_ltb half r then f + 1
  else if Z.even f then f else f + 1.

Definition round2 (x : float) : float :=
  match x with
  | Fin q => Fin (Qc_of_Z (rint (q * Qc_of_Z 100)%Qc) / Qc_of_Z 100)%Qc
  | _ => x
  end.

Definition tail {A} (n : nat) (l : list A) : list A := drop (length l - n) l.


(** ** Frames *)

(** One row of the provider's frame and of the resampled frame: the index
    (a timestamp [ts], in elapsed seconds counted from the local midnight
    that begins the day of the frame's earliest row, the origin of
    [resample]) and the four price columns the tool reads.  The provider's
    other columns (Volume, Dividends, Stock Splits) are not selected by
    [ohlc_dict] and are left out. *)
Record Bar := mkBar {
  ts : Z;
  Open : float;
  High : float;
  Low : float;
  Close : float
}.

Global Instance Bar_eq_dec : EqDecision Bar.
Proof. solve_decision. Defined.

Abbreviation History := (list Bar) (only parsing).

Definition empty (h : History) : bool :=
  match h with [] => true | _ => false end.

(** [history.resample('4h')]: the rows are ordered by index (a stable
    sort: rows of equal timestamp keep the order in which they are
    listed), the bins are the half-open windows [[4h*k, 4h*(k+1))] of
    elapsed time counted from the origin, labelled by their left edge, one
    for every [k] between the bin of the earliest row and the bin of the
    latest row, whether any row falls into it or not. *)
Definition freq_4h : Z := 4 * 3600.
Definition bin_of (t : Z) : Z := t `div` freq_4h.

Fixpoint insert_by_ts (b : Bar) (l : History) : History :=
  match l with
  | [] => [b]
  | c :: l' => if decide (ts b <= ts c) then b :: l else c :: insert_by_ts b l'
  end.
(** Each row is put in front of the rows listed after it that are not
    earlier than it. *)
Definition sort_index (h : History) : History := foldr insert_by_ts [] h.

Definition bins (h : History) : list Z :=
  match sort_index h with
  | [] => []
  | b0 :: s =>
      let lo := bin_of (ts b0) in
      let hi := bin_of (ts (List.last s b0)) in
      seqZ lo (hi - lo + 1)
  end.

Definition group (h : History) (k : Z) : History :=
  filter (fun b => bin_of (ts b) = k) (sort_index h).

Definition resample_4h (h : History) : list (Z * History) :=
  map (fun k => (k, group h k)) (bins h).

(** The four aggregations of [ohlc_dict]; each skips NaN cells and is NaN
    on a group without a value. *)
Fixpoint agg_first (s : Series) : float :=
  match s with
  | [] => NaN
  | x :: s' => if notna x then x else agg_first s'
  end.
Definition agg_last (s : Series) : float :=
  foldl (fun acc x => if notna x then x else acc) NaN s.

(** One step of a running maximum or minimum: a NaN cell is skipped, the
    first value is taken, a later one is taken when it is [better]. *)
Definition skipna_step (better : float -> float -> bool) (acc x : float) : float :=
  if isna x then acc
  else if isna acc then x
  else if better x acc then x else acc.
Definition agg_max (s : Series) : float :=
  foldl (skipna_step (fun x acc => flt acc x)) NaN s.
Definition agg_min (s : Series) : float :=
  foldl (skipna_step (fun x acc => flt x acc)) NaN s.

(** [.agg({'Open': 'first', 'High': 'max', 'Low': 'min', 'Close': 'last'})] *)
Definition agg_ohlc (g : Z * History) : Bar :=
  {| ts := freq_4h * g.1;
     Open := agg_first (map Open g.2);
     High := agg_max (map High g.2);
     Low := agg_min (map Low g.2);
     Close := agg_last (map Close g.2) |}.

Definition complete (b : Bar) : bool :=
  notna (Open b) && notna (High b) && notna (Low b) && notna (Close b).

(** [.dropna()]: drop every row with a NaN cell. *)
Definition dropna (df : History) : History :=
  filter (fun b => complete b = true) df.

Definition data_4h (history : History) : History :=
  dropna (map agg_ohlc (resample_4h history)).

(** ** Indicators *)

Definition f0 : float := zf 0.
Definition f1 : float := zf 1.
Definition f100 : float := zf 100.

Definition delta (close : Series) : Series := diff close.
Definition gain (close : Series) : Series :=
  rolling_mean 14 (where_ (fun d => fgt d f0) f0 (delta close)).
Definition loss (close : Series) : Series :=
  rolling_mean 14 (map fneg (where_ (fun d => flt d f0) f0 (delta close))).
Definition rs (close : Series) : Series :=
  zip_with fdiv (gain close) (loss close).
Definition RSI (close : Series) : Series :=
  map (fun r => fsub f100 (fdiv f100 (fadd f1 r))) (rs close).
Definition EMA_50 (close : Series) : Series := ewm_mean 50 close.

(** A row of [data_4h[['Close', 'RSI', 'EMA_50']]]. *)
Record IndRow := mkIndRow {
  r_ts : Z;
  r_Close : float;
  r_RSI : float;
  r_EMA_50 : float
}.

Global Instance IndRow_eq_dec : EqDecision IndRow.
Proof. solve_decision. Defined.

Definition with_indicators (d4 : History) : list IndRow :=
  let close := map Close d4 in
  zip_with (fun b re => mkIndRow (ts b) (Close b) re.1 re.2)
           d4 (zip (RSI close) (EMA_50 close)).

Definition round_row (r : IndRow) : IndRow :=
  mkIndRow (r_ts r) (round2 (r_Close r)) (round2 (r_RSI r)) (round2 (r_EMA_50 r)).

Definition final_df (d4 : History) : list IndRow :=
  map round_row (tail 12 (with_indicators d4)).

(** ** Effects: the log, the providers and Python exceptions *)

(** A raised Python exception: whether its class derives from [Exception]
    (the others derive from [BaseException] only: [KeyboardInterrupt],
    [SystemExit], [GeneratorExit]) and what [str(e)] gives. *)
Record exn := mkExn { is_Exception : bool; exn_str : string }.

Inductive outcome (A : Type) : Type :=
  | Return (a : A)
  | Raise (e : exn).
Arguments Return {A} a.
Arguments Raise {A} e.

(** What a run does, in order: the lines it prints, the calls it makes to
    the two providers with their arguments, the stages of the price
    computation it enters, the construction of the search client and the
    loop that formats the results. *)
Inductive event : Type :=
  | EvPrint (line : string)
  | EvHistory (ticker period interval : string)
  | EvResample
  | EvIndicators
  | EvToString
  | EvDDGS
  | EvSearch (query : string) (max_results : nat) (timelimit : string)
  | EvRecords.

Definition M (A : Type) : Type := list event * outcome A.

Global Instance M_ret : MRet M := fun A a => ([], Return a).
Global Instance M_bind : MBind M := fun A B f m =>
  match m with
  | (t, Return a) => let r := f a in (t ++ r.1, r.2)
  | (t, Raise e) => (t, Raise e)
  end.

Definition emit (ev : event) : M unit := ([ev], Return ()).
Definition call {A} (ev : event) (r : outcome A) : M A := ([ev], r).

(** A stage of a tool body can raise for a cause the typed frames leave
    out: a frame without the price columns or without a datetime index, a
    client that cannot be built, a result that is not a dict, an
    interrupt.  [fault ev] is the exception that arises in stage [ev], if
    one does; [no_fault] is a run whose stages raise nothing.  The calls to
    the two providers raise through their own outcome; printing the log
    line is taken not to raise. *)
Definition faults : Type := event -> option exn.
Definition no_fault : faults := fun _ => None.

Definition stage {A} (fault : faults) (ev : event) (a : A) : M A :=
  match fault ev with
  | Some e => ([ev], Raise e)
  | None => ([ev], Return a)
  end.

(** [try: body except Exception as e: handler e] *)
Definition try_except {A} (body : M A) (handler : exn -> M A) : M A :=
  match body with
  | (t, Raise e) =>
      if is_Exception e then let r := handler e in (t ++ r.1, r.2)
      else (t, Raise e)
  | r => r
  end.

Definition trace {A} (m : M A) : list event := m.1.
Definition result {A} (m : M A) : outcome A := m.2.

Definition nl : string := String "010"%char EmptyString.

Module XAUPriceFetchTool.
Section Tool.
Variable fault : faults.
(** [yf.Ticker(ticker).history(period=..., interval=...)] *)
Variable yf_history : string -> string -> string -> outcome History.
(** [DataFrame.to_string()] *)
Variable to_string : list IndRow -> string.

Definition _run (query : string) : M string :=
  try_except
    (emit (EvPrint (nl +:+ "[Tool Log] Fetching 4H Price Data from Yahoo Finance...")) ;;
     let ticker := "GC=F" in
     history ← call (EvHistory ticker "1mo" "1h") (yf_history ticker "1mo" "1h");
     if empty history then mret "Error: Could not fetch data."
     else
       data_4h ← stage fault EvResample (data_4h history);
       final_df ← stage fault EvIndicators (final_df data_4h);
       stage fault EvToString (to_string final_df))
    (fun e => mret ("Error processing data: " +:+ exn_str e)).
End Tool.
End XAUPriceFetchTool.

Module NewsSearchTool.
Section Tool.
Variable fault : faults.
(** [ddgs.text(query, max_results=..., timelimit=...)] on the client that
    [DDGS()] built: the records, each a dict from field name to text. *)
Variable ddgs_text : string -> nat -> string -> outcome (list (gmap string string)).

Definition record (r : gmap string string) : string :=
  let title := default "No Title" (r !! "title") in
  let body := default "No snippet" (r !! "body") in
  let date := default "Unknown Date" (r !! "date") in
  "NEWS TITLE: " +:+ title +:+ nl +:+ "DATE: " +:+ date +:+ nl
    +:+ "SNIPPET: " +:+ body +:+ nl +:+ "---".

Definition _run (query : string) : M string :=
  try_except
    (emit (EvPrint (nl +:+ "[Tool Log] Searching DuckDuckGo (Past 24h) for: '"
                       +:+ query +:+ "'...")) ;;
     stage fault EvDDGS () ;;
     search_gen ← call (EvSearch query 3 "d") (ddgs_text query 3 "d");
     results ← stage fault EvRecords (map record search_gen);
     if bool_decide (results = []) then
       mret "No news found in the last 24 hours. Assume Neutral."
     else mret (String.concat nl results))
    (fun e => mret ("Search Error: " +:+ exn_str e)).
End Tool.
End NewsSearchTool.

(** The first two events of every run of the price tool. *)
Definition price_log : event :=
  EvPrint (nl +:+ "[Tool Log] Fetching 4H Price Data from Yahoo Finance...").
Definition price_fetch : event := EvHistory "GC=F" "1mo" "1h".

(** The exception that arises inside the body of the price tool: the one
    the fetch raises, or else that of the first stage that raises, stages
    being entered only on a history that is not empty. *)
Inductive price_raises (fault : faults)
    (yf_history : string -> string -> string -> outcome (list Bar)) : exn -> Prop :=
  | raises_fetch e :
      yf_history "GC=F" "1mo" "1h" = Raise e -> price_raises fault yf_history e
  | raises_resample h e :
      yf_history "GC=F" "1mo" "1h" = Return h -> h <> [] ->
      fault EvResample = Some e -> price_raises fault yf_history e
  | raises_indicators h e :
      yf_history "GC=F" "1mo" "1h" = Return h -> h <> [] ->
      fault EvResample = None -> fault EvIndicators = Some e ->
      price_raises fault yf_history e
  | raises_to_string h e :
      yf_history "GC=F" "1mo" "1h" = Return h -> h <> [] ->
      fault EvResample = None -> fault EvIndicators = None ->
      fault EvToString = Some e -> price_raises fault yf_history e.

(** The exception that arises inside the body of the news tool: in the
    construction of the client, in the search, or in the loop over the
    results. *)
Inductive news_raises (fault : faults)
    (ddgs_text : string -> nat -> string -> outcome (list (gmap string string)))
    (query : string) : exn -> Prop :=
  | raises_client e :
      fault EvDDGS = Some e -> news_raises fault ddgs_text query e
  | raises_search e :
      fault EvDDGS = None -> ddgs_text query 3%nat "d" = Raise e ->
      news_raises fault ddgs_text query e
  | raises_records rs e :
      fault EvDDGS = None -> ddgs_text query 3%nat "d" = Return rs ->
      fault EvRecords = Some e -> news_raises fault ddgs_text query e.

(** Substring test, for statements about what a returned text contains. *)
Fixpoint contains (needle hay : string) : bool :=
  String.prefix needle hay ||
  match hay with
  | EmptyString => false
  | String _ hay' => contains needle hay'
  end.

(** ** Reference formulas, as the specification words them *)

Section Reference.
Local Open Scope Qc_scope.

(** The smoothing factor of span 50, as the specification words it. *)
Definition alpha_50 : Qc := Qc_of_Z 2 / (Qc_of_Z 50 + Qc_of_Z 1).

(** The recurrence of the specification: seeded by the first close,
    [EMA_i = alpha * close_i + (1 - alpha) * EMA_(i-1)] afterwards. *)
Fixpoint ema_ref (alpha : Qc) (close : nat -> Qc) (i : nat) : Qc :=
  match i with
  | O => close O
  | S j => alpha * close (S j) + (1 - alpha) * ema_ref alpha close j
  end.

(** The per-step delta of a close series, by position; the first row has
    no previous close and counts for 0 in both averages. *)
Definition step_delta (close : nat -> Qc) (j : nat) : Qc :=
  match j with
  | O => 0
  | S k => close (S k) - close k
  end.

(** A positive delta, a negative one counted as 0. *)
Definition up_move (close : nat -> Qc) (j : nat) : Qc :=
  if Qc_ltb 0 (step_delta close j) then step_delta close j else 0.

(** The magnitude of a negative delta, a positive one counted as 0. *)
Definition down_move (close : nat -> Qc) (j : nat) : Qc :=
  if Qc_ltb (step_delta close j) 0 then - step_delta close j else 0.

(** [f lo + f (lo+1) + ... + f (lo+n-1)] *)
Fixpoint sum_range (f : nat -> Qc) (lo n : nat) : Qc :=
  match n with
  | O => 0
  | S n' => f lo + sum_range f (S lo) n'
  end.

(** The arithmetic means over the trailing 14 positions [i-13 .. i]. *)
Definition gain_ref (close : nat -> Qc) (i : nat) : Qc :=
  sum_range (up_move close) (i - 13) 14 / Qc_of_Z 14.
Definition loss_ref (close : nat -> Qc) (i : nat) : Qc :=
  sum_range (down_move close) (i - 13) 14 / Qc_of_Z 14.

(** [RS = gain/loss], [RSI = 100 - 100/(1+RS)], the two divisions being
    float divisions. *)
Definition rsi_ref (close : nat -> Qc) (i : nat) : float :=
  let RS := fdiv (Fin (gain_ref close i)) (Fin (loss_ref close i)) in
  fsub f100 (fdiv f100 (fadd f1 RS)).

Definition Qc_sum (l : list Qc) : Qc := foldr Qcplus 0 l.

End Reference.

(** ** What a resampled cell is, as the specification words it *)

(** Time order on rows. *)
Definition by_ts (a b : Bar) : Prop := ts a <= ts b.

Definition fle (x y : float) : bool :=
  match x, y with
  | NaN, _ | _, NaN => false
  | _, _ => negb (flt y x)
  end.

(** [x] is the first (the last) cell of [s] that is not missing. *)
Definition first_value (s : list float) (x : float) : Prop :=
  exists pre post, s = pre ++ x :: post /\ Forall (fun y => y = NaN) pre /\ x <> NaN.
Definition last_value (s : list float) (x : float) : Prop :=
  exists pre post, s = pre ++ x :: post /\ Forall (fun y => y = NaN) post /\ x <> NaN.

(** [x] is the greatest (the least) of the cells of [s] that are not
    missing. *)
Definition max_value (s : list float) (x : float) : Prop :=
  x ∈ s /\ x <> NaN /\ forall y, y ∈ s -> y <> NaN -> fle y x = true.
Definition min_value (s : list float) (x : float) : Prop :=
  x ∈ s /\ x <> NaN /\ forall y, y ∈ s -> y <> NaN -> fle x y = true.

(** ** What the output table holds, as the specification words it *)

Section Table.
Local Open Scope Qc_scope.


(** Every price of the fetched history is a number or is missing. *)
Definition price (x : float) : Prop := x <> PInf /\ x <> NInf.

End Table.

(** A candle: every cell present, low below open and close, high above. *)
Definition candle (b : Bar) : Prop :=
  fle (Low b) (Open b) = true /\ fle (Open b) (High b) = true /\
  fle (Low b) (Close b) = true /\ fle (Close b) (High b) = true.

(** A finite close series read by position (0 outside its range). *)
Abbreviation closes cs := (fun j => nth j cs 0%Qc) (only parsing).

(** ** Sample inputs *)

(** A bar stamped [hour] hours after the reference midnight, trading
    around [price]. *)
Definition bar_at (hour price : Z) : Bar :=
  mkBar (3600 * hour) (zf price) (zf (price + 2)) (zf (price - 3)) (zf (price + 1)).

(** Sixteen four-hour windows, one bar in each. *)
Definition sample_prices : list Z :=
  [1900; 1904; 1901; 1907; 1910; 1908; 1912; 1915;
   1911; 1918; 1920; 1917; 1923; 1925; 1922; 1930].
Definition sample_history : list Bar :=
  imap (fun i p => bar_at (4 * Z.of_nat i) p) sample_prices.
Definition sample_closes : list Qc := map (fun p => Qc_of_Z (p + 1)) sample_prices.

(** Sixteen windows of steadily rising prices. *)
Definition rising_history : list Bar :=
  map (fun i => bar_at (4 * i) (1900 + i)) (seqZ 0 16).
Definition rising_closes : list Qc := map (fun i => Qc_of_Z (1901 + i)) (seqZ 0 16).

(** Two bars of one window, the first without an open. *)
Definition gap_history : list Bar :=
  [ mkBar 3600 NaN (zf 1902) (zf 1897) (zf 1901);
    mkBar 7200 (zf 1905) (zf 1907) (zf 1900) (zf 1903) ].

(** Six hourly bars: four in the first window, two in the second. *)
Definition hourly_history : list Bar :=
  [ bar_at 0 1900; bar_at 1 1905; bar_at 2 1898; bar_at 3 1903;
    bar_at 4 1910; bar_at 5 1907 ].


(** [KeyboardInterrupt()], which does not derive from [Exception]. *)
Definition KeyboardInterrupt : exn := mkExn false "".
(** A provider failure, [Exception("timed out")]. *)
Definition provider_timeout : exn := mkExn true "timed out".

(** Twenty-six four-hour windows, one bar in each. *)
Definition long_prices : list Z :=
  [1900; 1904; 1901; 1907; 1910; 1908; 1912; 1915; 1911; 1918; 1920; 1917; 1923;
   1925; 1922; 1930; 1928; 1933; 1931; 1936; 1934; 1939; 1941; 1938; 1944; 1946].
Definition long_history : list Bar :=
  imap (fun i p => bar_at (4 * Z.of_nat i) p) long_prices.
Definition long_closes : list Qc := map (fun p => Qc_of_Z (p + 1)) long_prices.

(** A non-empty history in which no bar has an open. *)
Definition no_open_history : list Bar :=
  [ mkBar 0 NaN (zf 1902) (zf 1897) (zf 1901);
    mkBar 3600 NaN (zf 1907) (zf 1900) (zf 1903) ].

(** The sentence of the news tool for an empty search. *)
Definition no_news : string := "No news found in the last 24 hours. Assume Neutral.".

(** Three bars of two windows, listed out of time order. *)
Definition shuffled_history : list Bar :=
  [ bar_at 5 1910; bar_at 0 1900; bar_at 1 1904 ].
Definition ordered_history : list Bar :=
  [ bar_at 0 1900; bar_at 1 1904; bar_at 5 1910 ].

(** * Properties *)

(** ** Rationals and cells *)

Section Cells.
Local Open Scope Qc_scope.

Lemma Qc_ltb_lt (a b : Qc) : Qc_ltb a b = true <-> a < b.
Proof.
  unfold Qc_ltb. rewrite Qclt_alt. destruct (a ?= b); split; congruence.
Qed.

Lemma Qc_ltb_ge (a b : Qc) : Qc_ltb a b = false <-> b <= a.
Proof.
  rewrite Qcle_ngt, <- Qc_ltb_lt. destruct (Qc_ltb a b); split; congruence.
Qed.

Lemma Qc_eqb_eq (a b : Qc) : Qc_eqb a b = true <-> a = b.
Proof.
  unfold Qc_eqb. rewrite Qceq_alt. destruct (a ?= b); split; congruence.
Qed.

Lemma Qc_eqb_neq (a b : Qc) : Qc_eqb a b = false <-> a <> b.
Proof.
  rewrite <- Qc_eqb_eq. destruct (Qc_eqb a b); split; congruence.
Qed.

Lemma fdiv_Fin (a b : Qc) : b <> 0 -> fdiv (Fin a) (Fin b) = Fin (a / b).
Proof. intros Hb. simpl. apply Qc_eqb_neq in Hb. rewrite Hb. reflexivity. Qed.

Lemma fdiv_one (x : float) : fdiv x f1 = x.
Proof.
  destruct x as [a| | |]; try reflexivity.
  unfold f1, zf. rewrite Z2Qc_inj_1, fdiv_Fin by discriminate.
  f_equal. field. discriminate.
Qed.

Lemma fne_Fin (a b : Qc) : fne (Fin a) (Fin b) = negb (bool_decide (a = b)).
Proof.
  simpl. f_equal. apply bool_decide_ext. split; congruence.
Qed.

Lemma prep_values_Fin (cs : list Qc) : prep_values (map Fin cs) = map Fin cs.
Proof.
  unfold prep_values. rewrite <- list_fmap_compose. by apply list_fmap_ext.
Qed.

Lemma length_prep_values (s : list float) : length (prep_values s) = length s.
Proof. unfold prep_values. by rewrite length_map. Qed.

End Cells.

(** ** The exponential moving average *)

Section EMA.
Local Open Scope Qc_scope.

Lemma alpha_of_span_50 : alpha_of_com (com_of_span 50) = Fin alpha_50.
Proof. vm_compute. f_equal; apply Qc_is_canon; reflexivity. Qed.

Lemma ewm_step_Fin (a w c : Qc) :
  ewm_step (Fin a) {| weighted := Fin w; old_wt := zf 1 |} (Fin c)
  = {| weighted := Fin (a * c + (1 - a) * w); old_wt := zf 1 |}.
Proof.
  unfold ewm_step. cbn [weighted old_wt notna isna negb].
  f_equal. rewrite fne_Fin. unfold zf. rewrite Z2Qc_inj_1.
  case_bool_decide as Hwc; cbn [negb].
  - subst c. f_equal. ring.
  - cbn [fsub fneg fadd fmul].
    replace (1 * (1 + - a) + a) with (1 : Qc) by ring.
    rewrite fdiv_Fin by discriminate. f_equal.
    rewrite (right_id 1 Qcdiv). ring.
Qed.

Lemma ewm_loop_Fin (a : Qc) (cs : list Qc) (w : Qc) (i : nat) :
  (i < length cs)%nat ->
  ewm_loop (Fin a) {| weighted := Fin w; old_wt := zf 1 |} (map Fin cs) !! i
  = Some (Fin (ema_ref a (fun j => nth j (w :: cs) 0) (S i))).
Proof.
  revert w i. induction cs as [|c cs IH]; intros w i Hi; [simpl in Hi; lia|].
  cbn [map ewm_loop]. rewrite ewm_step_Fin. cbn [weighted].
  destruct i as [|i].
  - reflexivity.
  - cbn [lookup list_lookup]. simpl in Hi.
    change ((Fin (a * c + (1 - a) * w) :: ewm_loop (Fin a)
              {| weighted := Fin (a * c + (1 - a) * w); old_wt := zf 1 |}
              (map Fin cs)) !! S i)
      with (ewm_loop (Fin a)
              {| weighted := Fin (a * c + (1 - a) * w); old_wt := zf 1 |}
              (map Fin cs) !! i).
    rewrite IH by lia. do 2 f_equal.
    clear. induction i as [|i IHi]; [reflexivity|].
    change (ema_ref a (fun j => nth j (w :: c :: cs) 0) (S (S (S i))))
      with (a * nth (S (S i)) (c :: cs) 0
            + (1 - a) * ema_ref a (fun j => nth j (w :: c :: cs) 0) (S (S i))).
    rewrite <- IHi. reflexivity.
Qed.

Lemma EMA_50_Fin (cs : list Qc) (i : nat) :
  (i < length cs)%nat ->
  EMA_50 (map Fin cs) !! i = Some (Fin (ema_ref alpha_50 (fun j => nth j cs 0) i)).
Proof.
  unfold EMA_50, ewm_mean. rewrite alpha_of_span_50, prep_values_Fin.
  destruct cs as [|c cs]; [simpl; lia|]. intros Hi. cbn [map].
  destruct i as [|i]; [reflexivity|]. simpl in Hi.
  change ((Fin c :: ewm_loop (Fin alpha_50) {| weighted := Fin c; old_wt := zf 1 |}
             (map Fin cs)) !! S i)
    with (ewm_loop (Fin alpha_50) {| weighted := Fin c; old_wt := zf 1 |}
             (map Fin cs) !! i).
  rewrite ewm_loop_Fin by lia. reflexivity.
Qed.

End EMA.

Lemma ewm_loop_constant (alpha c ow : float) (n : nat) :
  ewm_loop alpha {| weighted := c; old_wt := ow |} (replicate n c) = replicate n c.
Proof.
  revert ow. induction n as [|n IH]; intros ow; [reflexivity|].
  cbn [replicate ewm_loop]. unfold ewm_step. cbn [weighted old_wt].
  destruct (notna c) eqn:Hc.
  - assert (fne c c = false) as ->.
    { destruct c; try discriminate; unfold fne; rewrite bool_decide_eq_true_2; done. }
    cbn [weighted]. f_equal. apply IH.
  - cbn [weighted]. f_equal. apply IH.
Qed.

(** ** Shapes of the columns *)

Lemma length_diff_from (p : float) (s : Series) : length (diff_from p s) = length s.
Proof. revert p. induction s as [|x s IH]; intros p; simpl; [|rewrite IH]; done. Qed.

Lemma length_rolling_mean (w : nat) (s : Series) : length (rolling_mean w s) = length s.
Proof. unfold rolling_mean. by rewrite length_map, length_seq. Qed.

Lemma length_gain (s : Series) : length (gain s) = length s.
Proof.
  unfold gain, where_, delta, diff.
  by rewrite length_rolling_mean, length_map, length_diff_from.
Qed.

Lemma length_loss (s : Series) : length (loss s) = length s.
Proof.
  unfold loss, where_, delta, diff.
  by rewrite length_rolling_mean, !length_map, length_diff_from.
Qed.

Lemma length_RSI (s : Series) : length (RSI s) = length s.
Proof.
  unfold RSI, rs. rewrite length_map, length_zip_with, length_gain, length_loss. lia.
Qed.

Lemma length_ewm_loop (a : float) (st : ewm_state) (s : Series) :
  length (ewm_loop a st s) = length s.
Proof. revert st. induction s as [|x s IH]; intros st; simpl; [|rewrite IH]; done. Qed.

Lemma length_EMA_50 (s : Series) : length (EMA_50 s) = length s.
Proof.
  unfold EMA_50, ewm_mean. rewrite <- (length_prep_values s).
  destruct (prep_values s); simpl; [|rewrite length_ewm_loop]; done.
Qed.

Lemma length_with_indicators (d4 : History) :
  length (with_indicators d4) = length d4.
Proof.
  unfold with_indicators.
  rewrite length_zip_with, length_zip, length_RSI, length_EMA_50, length_map. lia.
Qed.

Lemma with_indicators_lookup (d4 : History) (i : nat) (r : IndRow) :
  with_indicators d4 !! i = Some r <->
  exists b x e, d4 !! i = Some b /\ RSI (map Close d4) !! i = Some x /\
    EMA_50 (map Close d4) !! i = Some e /\ r = mkIndRow (ts b) (Close b) x e.
Proof.
  unfold with_indicators. rewrite lookup_zip_with_Some. split.
  - intros (b & [x e] & -> & Hb & Hxe). apply lookup_zip_with_Some in Hxe.
    destruct Hxe as (x' & e' & [= -> ->] & Hx & He). eauto 10.
  - intros (b & x & e & Hb & Hx & He & ->). exists b, (x, e).
    split_and!; [done..|]. apply lookup_zip_with_Some. eauto.
Qed.

Lemma with_indicators_EMA_50 (d4 : History) :
  map r_EMA_50 (with_indicators d4) = EMA_50 (map Close d4).
Proof.
  apply list_eq. intros i. rewrite list_lookup_fmap.
  destruct (with_indicators d4 !! i) as [r|] eqn:Hr; simpl.
  - apply with_indicators_lookup in Hr as (b & x & e & _ & _ & He & ->). done.
  - symmetry. apply lookup_ge_None. apply lookup_ge_None in Hr.
    rewrite length_with_indicators in Hr. by rewrite length_EMA_50, length_map.
Qed.

Lemma with_indicators_RSI (d4 : History) :
  map r_RSI (with_indicators d4) = RSI (map Close d4).
Proof.
  apply list_eq. intros i. rewrite list_lookup_fmap.
  destruct (with_indicators d4 !! i) as [r|] eqn:Hr; simpl.
  - apply with_indicators_lookup in Hr as (b & x & e & _ & Hx & _ & ->). done.
  - symmetry. apply lookup_ge_None. apply lookup_ge_None in Hr.
    rewrite length_with_indicators in Hr. by rewrite length_RSI, length_map.
Qed.

Lemma with_indicators_Close (d4 : History) :
  map r_Close (with_indicators d4) = map Close d4.
Proof.
  apply list_eq. intros i. rewrite !list_lookup_fmap.
  destruct (with_indicators d4 !! i) as [r|] eqn:Hr.
  - apply with_indicators_lookup in Hr as (b & x & e & Hb & _ & _ & ->).
    by rewrite Hb.
  - apply lookup_ge_None in Hr. rewrite length_with_indicators in Hr.
    apply lookup_ge_None in Hr. by rewrite Hr.
Qed.

(** ** The relative strength index *)

Section RSI.
Local Open Scope Qc_scope.

Lemma foldl_fadd_Fin (a : Qc) (l : list Qc) :
  foldl fadd (Fin a) (map Fin l) = Fin (a + Qc_sum l).
Proof.
  revert a. induction l as [|x l IH]; intros a; cbn [map foldl Qc_sum foldr].
  - f_equal. ring.
  - cbn [fadd]. rewrite IH. f_equal. unfold Qc_sum. ring.
Qed.

Lemma fsum_Fin (l : list Qc) : fsum (map Fin l) = Fin (Qc_sum l).
Proof.
  unfold fsum, zf. rewrite foldl_fadd_Fin, Z2Qc_inj_0. f_equal. ring.
Qed.

Lemma filter_notna_Fin (l : list Qc) :
  filter (fun x => notna x = true) (map Fin l) = map Fin l.
Proof.
  induction l as [|x l IH]; [done|]. cbn [map].
  rewrite filter_cons_True by done. by rewrite IH.
Qed.

Lemma Qc_of_Z_pos_neq_0 (n : nat) : (0 < n)%nat -> Qc_of_Z (Z.of_nat n) <> 0.
Proof.
  intros Hn E. rewrite <- Z2Qc_inj_0 in E. apply Z2Qc_inj in E. lia.
Qed.

(** The rolling mean of a series of numbers: NaN during the first [w-1]
    positions, then the mean of the last [w] cells. *)
Lemma rolling_mean_Fin (w : nat) (qs : list Qc) (i : nat) :
  (0 < w)%nat -> (i < length qs)%nat ->
  rolling_mean w (map Fin qs) !! i =
    Some (if decide (w <= S i)%nat
          then Fin (Qc_sum (drop (S i - w) (take (S i) qs)) / Qc_of_Z (Z.of_nat w))
          else NaN).
Proof.
  intros Hw Hi. unfold rolling_mean. rewrite prep_values_Fin.
  rewrite list_lookup_fmap, lookup_seq_lt by (by rewrite length_map).
  cbn [fmap option_fmap option_map]. f_equal. change (0 + i)%nat with i.
  unfold rolling_mean_at, rolling_window.
  rewrite <- fmap_take, <- fmap_drop, filter_notna_Fin, length_map.
  rewrite length_drop, length_take.
  destruct (decide (w <= S i)%nat) as [Hwi|Hwi].
  - rewrite decide_True by lia.
    replace (S i `min` length qs - (S i - w))%nat with w by lia.
    rewrite fsum_Fin. unfold zf.
    rewrite fdiv_Fin; [done | by apply Qc_of_Z_pos_neq_0].
  - rewrite decide_False by lia. done.
Qed.

Lemma Qc_sum_window (qs : list Qc) (lo n : nat) :
  (lo + n <= length qs)%nat ->
  Qc_sum (drop lo (take (lo + n) qs)) = sum_range (fun j => nth j qs 0) lo n.
Proof.
  revert lo. induction n as [|n IH]; intros lo Hlen.
  - rewrite Nat.add_0_r. rewrite drop_ge by (rewrite length_take; lia). done.
  - destruct (lookup_lt_is_Some_2 qs lo) as [x Hx]; [lia|].
    rewrite (drop_S _ x).
    2:{ rewrite lookup_take_lt by lia. done. }
    cbn [Qc_sum foldr sum_range]. f_equal.
    + symmetry. apply nth_lookup_Some with (d := 0) in Hx. done.
    + replace (lo + S n)%nat with (S lo + n)%nat by lia. apply IH. lia.
Qed.

Lemma sum_range_ext (f g : nat -> Qc) (lo n : nat) :
  (forall j, (lo <= j < lo + n)%nat -> f j = g j) ->
  sum_range f lo n = sum_range g lo n.
Proof.
  revert lo. induction n as [|n IH]; intros lo H; [done|].
  cbn [sum_range]. rewrite (H lo) by lia. f_equal. apply IH. intros j Hj. apply H. lia.
Qed.

Lemma diff_from_Fin_lookup (p : float) (cs : list Qc) (j : nat) :
  (S j < length cs)%nat ->
  diff_from p (map Fin cs) !! S j = Some (Fin (nth (S j) cs 0 - nth j cs 0)).
Proof.
  revert p j. induction cs as [|c cs IH]; intros p j Hj; [simpl in Hj; lia|].
  cbn [map diff_from]. destruct j as [|j].
  - destruct cs as [|c' cs]; [simpl in Hj; lia|]. reflexivity.
  - simpl in Hj.
    change ((fsub (Fin c) p :: diff_from (Fin c) (map Fin cs)) !! S (S j))
      with (diff_from (Fin c) (map Fin cs) !! S j).
    rewrite IH by lia. reflexivity.
Qed.

Lemma diff_Fin_lookup (cs : list Qc) (j : nat) :
  (j < length cs)%nat ->
  diff (map Fin cs) !! j =
    Some (match j with O => NaN | S _ => Fin (step_delta (closes cs) j) end).
Proof.
  intros Hj. destruct j as [|j].
  - destruct cs; [simpl in Hj; lia|]. reflexivity.
  - unfold diff. by rewrite diff_from_Fin_lookup.
Qed.

Lemma ups_Fin (cs : list Qc) :
  where_ (fun d => fgt d f0) f0 (delta (map Fin cs))
  = map Fin (map (up_move (closes cs)) (seq 0 (length cs))).
Proof.
  apply list_eq. intros j. unfold where_, delta.
  rewrite !list_lookup_fmap.
  destruct (decide (j < length cs)%nat) as [Hj|Hj].
  - rewrite diff_Fin_lookup, lookup_seq_lt by done.
    cbn [fmap option_fmap option_map]. f_equal. change (0 + j)%nat with j.
    unfold up_move, f0, zf. rewrite Z2Qc_inj_0. destruct j as [|j].
    + reflexivity.
    + cbn [fgt flt]. by destruct (Qc_ltb 0 _).
  - rewrite (proj2 (lookup_ge_None _ _)), (proj2 (lookup_ge_None _ _)); [done|..].
    + rewrite length_seq. lia.
    + unfold diff. rewrite length_diff_from, length_map. lia.
Qed.

Lemma downs_Fin (cs : list Qc) :
  map fneg (where_ (fun d => flt d f0) f0 (delta (map Fin cs)))
  = map Fin (map (down_move (closes cs)) (seq 0 (length cs))).
Proof.
  apply list_eq. intros j. unfold where_, delta.
  rewrite !list_lookup_fmap.
  destruct (decide (j < length cs)%nat) as [Hj|Hj].
  - rewrite diff_Fin_lookup, lookup_seq_lt by done.
    cbn [fmap option_fmap option_map]. f_equal. change (0 + j)%nat with j.
    unfold down_move, f0, zf. rewrite Z2Qc_inj_0. destruct j as [|j].
    + cbn. f_equal; apply Qc_is_canon; reflexivity.
    + cbn [flt]. destruct (Qc_ltb _ 0); cbn [fneg]; [done|].
      f_equal; ring.
  - rewrite (proj2 (lookup_ge_None _ _)), (proj2 (lookup_ge_None _ _)); [done|..].
    + rewrite length_seq. lia.
    + unfold diff. rewrite length_diff_from, length_map. lia.
Qed.

Lemma window_sum (f : nat -> Qc) (n i : nat) :
  (13 <= i < n)%nat ->
  Qc_sum (drop (S i - 14) (take (S i) (map f (seq 0 n)))) = sum_range f (i - 13) 14.
Proof.
  intros Hi. replace (S i - 14)%nat with (i - 13)%nat by lia.
  replace (S i) with (i - 13 + 14)%nat at 1 by lia.
  rewrite Qc_sum_window by (rewrite length_map, length_seq; lia).
  apply sum_range_ext. intros j Hj.
  apply nth_lookup_Some with (d := 0).
  rewrite list_lookup_fmap, lookup_seq_lt by lia. done.
Qed.

(** [gain] and [loss] on a series of numbers: NaN on the first 13 rows,
    then the two reference means. *)
Lemma gain_Fin (cs : list Qc) (i : nat) :
  (i < length cs)%nat ->
  gain (map Fin cs) !! i =
    Some (if decide (13 <= i)%nat then Fin (gain_ref (closes cs) i) else NaN).
Proof.
  intros Hi. unfold gain. rewrite ups_Fin.
  rewrite rolling_mean_Fin by (rewrite ?length_map, ?length_seq; lia).
  f_equal. destruct (decide (14 <= S i)%nat) as [H|H].
  - rewrite decide_True by lia. rewrite window_sum by lia. done.
  - rewrite decide_False by lia. done.
Qed.

Lemma loss_Fin (cs : list Qc) (i : nat) :
  (i < length cs)%nat ->
  loss (map Fin cs) !! i =
    Some (if decide (13 <= i)%nat then Fin (loss_ref (closes cs) i) else NaN).
Proof.
  intros Hi. unfold loss. rewrite downs_Fin.
  rewrite rolling_mean_Fin by (rewrite ?length_map, ?length_seq; lia).
  f_equal. destruct (decide (14 <= S i)%nat) as [H|H].
  - rewrite decide_True by lia. rewrite window_sum by lia. done.
  - rewrite decide_False by lia. done.
Qed.

Lemma RSI_Fin (cs : list Qc) (i : nat) :
  (i < length cs)%nat ->
  RSI (map Fin cs) !! i =
    Some (if decide (13 <= i)%nat then rsi_ref (closes cs) i else NaN).
Proof.
  intros Hi. unfold RSI, rs.
  rewrite list_lookup_fmap, lookup_zip_with, gain_Fin, loss_Fin by done.
  cbn [mbind option_bind fmap option_fmap option_map]. f_equal.
  destruct (decide (13 <= i)%nat); reflexivity.
Qed.

Lemma up_move_nonneg (c : nat -> Qc) (j : nat) : 0 <= up_move c j.
Proof.
  unfold up_move. destruct (Qc_ltb 0 _) eqn:H.
  - apply Qclt_le_weak. by apply Qc_ltb_lt.
  - apply Qcle_refl.
Qed.

Lemma down_move_nonneg (c : nat -> Qc) (j : nat) : 0 <= down_move c j.
Proof.
  unfold down_move. destruct (Qc_ltb _ 0) eqn:H.
  - apply Qc_ltb_lt, Qclt_le_weak, Qcopp_le_compat in H.
    replace (- 0) with 0 in H by ring. done.
  - apply Qcle_refl.
Qed.

Lemma sum_range_nonneg (f : nat -> Qc) (lo n : nat) :
  (forall j, 0 <= f j) -> 0 <= sum_range f lo n.
Proof.
  intros Hf. revert lo. induction n as [|n IH]; intros lo; cbn [sum_range].
  - apply Qcle_refl.
  - by apply Qcplus_nonneg_nonneg.
Qed.

Lemma sum_range_zero (f : nat -> Qc) (lo n : nat) :
  (forall j, (lo <= j < lo + n)%nat -> f j = 0) -> sum_range f lo n = 0.
Proof.
  revert lo. induction n as [|n IH]; intros lo Hf; cbn [sum_range]; [done|].
  rewrite Hf, IH by (intros; try apply Hf; lia). ring.
Qed.

Lemma sum_range_pos (f : nat -> Qc) (lo n : nat) :
  (0 < n)%nat -> (forall j, (lo <= j < lo + n)%nat -> 0 < f j) ->
  0 < sum_range f lo n.
Proof.
  revert lo. induction n as [|n IH]; intros lo Hn Hf; [lia|]. cbn [sum_range].
  destruct n as [|n].
  - cbn [sum_range]. rewrite Qcplus_0_r. apply Hf. lia.
  - apply Qcplus_pos_pos; [apply Hf; lia|]. apply IH; [lia|]. intros; apply Hf; lia.
Qed.

Lemma Qc14_inv_pos : 0 < / Qc_of_Z 14.
Proof. apply Qcinv_pos. rewrite <- Z2Qc_inj_0. by apply Z2Qc_inj_lt. Qed.

Lemma gain_ref_nonneg (c : nat -> Qc) (i : nat) : 0 <= gain_ref c i.
Proof.
  apply Qcmult_nonneg_nonneg.
  - apply sum_range_nonneg, up_move_nonneg.
  - apply Qclt_le_weak, Qc14_inv_pos.
Qed.

Lemma Qc100_pos : 0 < Qc_of_Z 100.
Proof. rewrite <- Z2Qc_inj_0. by apply Z2Qc_inj_lt. Qed.

(** With a positive mean loss, the reference value is a number between 0
    and 100. *)
Lemma rsi_ref_bounded (c : nat -> Qc) (i : nat) :
  0 < loss_ref c i ->
  exists r, rsi_ref c i = Fin r /\ 0 <= r <= Qc_of_Z 100.
Proof.
  intros Hl. pose proof (gain_ref_nonneg c i) as Hg.
  unfold rsi_ref. set (g := gain_ref c i) in *. set (l := loss_ref c i) in *.
  assert (l <> 0) as Hl0 by (apply not_symmetry, Qclt_not_eq; done).
  assert (0 <= g / l) as Hgl.
  { apply Qcmult_nonneg_nonneg; [done|]. by apply Qclt_le_weak, Qcinv_pos. }
  assert (0 < 1 + g / l) as Hx by (by apply Qcplus_pos_nonneg).
  assert (1 + g / l <> 0) as Hx0 by (apply not_symmetry, Qclt_not_eq; done).
  assert (l + g <> 0) as Hlg.
  { apply not_symmetry, Qclt_not_eq. by apply Qcplus_pos_nonneg. }
  rewrite fdiv_Fin by done. unfold f1, f100, zf. rewrite Z2Qc_inj_1.
  cbn [fadd]. rewrite fdiv_Fin by done. cbn [fsub fneg fadd].
  eexists; split; [reflexivity|]. split.
  - replace (Qc_of_Z 100 + - (Qc_of_Z 100 / (1 + g / l)))
      with (Qc_of_Z 100 * (g / l) * / (1 + g / l)) by (field; split; done).
    apply Qcmult_nonneg_nonneg.
    + apply Qcmult_nonneg_nonneg; [apply Qclt_le_weak, Qc100_pos | done].
    + by apply Qclt_le_weak, Qcinv_pos.
  - apply Qcle_minus_iff.
    replace (Qc_of_Z 100 + - (Qc_of_Z 100 + - (Qc_of_Z 100 / (1 + g / l))))
      with (Qc_of_Z 100 * / (1 + g / l)) by (field; split; done).
    apply Qcmult_nonneg_nonneg; [apply Qclt_le_weak, Qc100_pos|].
    by apply Qclt_le_weak, Qcinv_pos.
Qed.

(** With 14 rising steps in a row there is no loss at all and the value
    is exactly 100. *)
Lemma rsi_ref_rising (c : nat -> Qc) (i : nat) :
  (14 <= i)%nat ->
  (forall j, (i - 14 <= j < i)%nat -> c j < c (S j)) ->
  rsi_ref c i = f100.
Proof.
  intros Hi Hup.
  assert (forall j, (i - 13 <= j < i - 13 + 14)%nat -> 0 < step_delta c j) as Hd.
  { intros j Hj. destruct j as [|j]; [lia|]. cbn [step_delta].
    apply (proj1 (Qclt_minus_iff (c j) (c (S j)))). apply Hup. lia. }
  assert (loss_ref c i = 0) as Hl.
  { unfold loss_ref. rewrite sum_range_zero; [unfold Qcdiv; by rewrite Qcmult_0_l|].
    intros j Hj. unfold down_move.
    rewrite (proj2 (Qc_ltb_ge _ _)); [done|]. by apply Qclt_le_weak, Hd. }
  assert (0 < gain_ref c i) as Hg.
  { apply Qcmult_pos_pos; [|apply Qc14_inv_pos].
    apply sum_range_pos; [lia|]. intros j Hj. unfold up_move.
    rewrite (proj2 (Qc_ltb_lt _ _)) by by apply Hd. by apply Hd. }
  unfold rsi_ref. rewrite Hl. cbn [fdiv].
  assert (Qc_eqb 0 0 = true) as -> by by apply Qc_eqb_eq.
  cbn [fsign]. rewrite (proj2 (Qc_ltb_ge _ _)) by by apply Qclt_le_weak.
  rewrite (proj2 (Qc_ltb_lt _ _)) by done.
  cbn. unfold f100, zf. f_equal; ring.
Qed.

End RSI.

(** ** The order on cells *)

Section Order.
Local Open Scope Qc_scope.

Lemma isna_true (x : float) : isna x = true <-> x = NaN.
Proof. destruct x; simpl; split; try congruence; done. Qed.

Lemma notna_true (x : float) : notna x = true <-> x <> NaN.
Proof. destruct x; simpl; split; try congruence; done. Qed.

Lemma isna_false (x : float) : isna x = false <-> x <> NaN.
Proof. destruct x; simpl; split; try congruence; done. Qed.

Lemma fle_refl (x : float) : x <> NaN -> fle x x = true.
Proof.
  destruct x as [a| | |]; try done. intros _. simpl.
  apply negb_true_iff, Qc_ltb_ge, Qcle_refl.
Qed.

Lemma fle_Fin (a b : Qc) : fle (Fin a) (Fin b) = true <-> a <= b.
Proof. simpl. rewrite negb_true_iff. apply Qc_ltb_ge. Qed.

Lemma fle_trans (x y z : float) :
  fle x y = true -> fle y z = true -> fle x z = true.
Proof.
  destruct x as [a| | |], y as [b| | |], z as [c| | |]; try done.
  rewrite !fle_Fin. apply Qcle_trans.
Qed.

Lemma fle_antisym (x y : float) :
  fle x y = true -> fle y x = true -> x = y.
Proof.
  destruct x as [a| | |], y as [b| | |]; try done.
  rewrite !fle_Fin. intros. f_equal. by apply Qcle_antisym.
Qed.

Lemma flt_fle (x y : float) : flt x y = true -> fle x y = true.
Proof.
  destruct x as [a| | |], y as [b| | |]; try done.
  simpl. rewrite negb_true_iff, Qc_ltb_lt, Qc_ltb_ge. apply Qclt_le_weak.
Qed.

Lemma not_flt_fle (x y : float) :
  x <> NaN -> y <> NaN -> flt x y = false -> fle y x = true.
Proof.
  destruct x as [a| | |], y as [b| | |]; try done.
  all: intros _ _ H; simpl in *; by rewrite ?H.
Qed.

End Order.

(** ** The four aggregations *)

Section Aggregation.

Lemma notna_false (x : float) : notna x = false <-> x = NaN.
Proof. destruct x; simpl; split; try congruence; done. Qed.

Lemma agg_first_NaN (s : list float) :
  agg_first s = NaN -> Forall (fun y => y = NaN) s.
Proof.
  induction s as [|x s IH]; simpl; [done|].
  destruct (notna x) eqn:Hx.
  - apply notna_true in Hx. done.
  - apply notna_false in Hx. auto.
Qed.

Lemma agg_first_value (s : list float) :
  agg_first s <> NaN -> first_value s (agg_first s).
Proof.
  induction s as [|x s IH]; simpl; [done|].
  destruct (notna x) eqn:Hx.
  - intros _. exists [], s. apply notna_true in Hx. done.
  - intros H. destruct (IH H) as (pre & post & E & Hpre & Hv).
    apply notna_false in Hx. exists (x :: pre), post.
    split_and!; [by rewrite E at 1 | by constructor | done].
Qed.

Lemma first_value_agg (s : list float) (x : float) :
  first_value s x -> agg_first s = x.
Proof.
  intros (pre & post & -> & Hpre & Hx).
  induction Hpre as [|y pre -> _ IH]; simpl.
  - apply notna_true in Hx. by rewrite Hx.
  - done.
Qed.

Lemma agg_last_snoc (s : list float) (x : float) :
  agg_last (s ++ [x]) = if notna x then x else agg_last s.
Proof. unfold agg_last. by rewrite foldl_app. Qed.

Lemma agg_last_NaN (s : list float) :
  agg_last s = NaN -> Forall (fun y => y = NaN) s.
Proof.
  induction s as [|x s IH] using rev_ind; [done|].
  rewrite agg_last_snoc. destruct (notna x) eqn:Hx.
  - apply notna_true in Hx. done.
  - apply notna_false in Hx. intros H. apply Forall_app. auto.
Qed.

Lemma agg_last_value (s : list float) :
  agg_last s <> NaN -> last_value s (agg_last s).
Proof.
  induction s as [|x s IH] using rev_ind; [done|].
  rewrite agg_last_snoc. destruct (notna x) eqn:Hx.
  - intros _. exists s, []. apply notna_true in Hx. done.
  - intros H. destruct (IH H) as (pre & post & E & Hpost & Hv).
    apply notna_false in Hx. exists pre, (post ++ [x]).
    split_and!; [|apply Forall_app; auto|done].
    rewrite E at 1. by rewrite <- app_assoc.
Qed.

Lemma last_value_agg (s : list float) (x : float) :
  last_value s x -> agg_last s = x.
Proof.
  intros (pre & post & -> & Hpost & Hx).
  induction post as [|y post IH] using rev_ind.
  - rewrite agg_last_snoc. apply notna_true in Hx. by rewrite Hx.
  - apply Forall_app in Hpost as [Hpost Hy]. apply Forall_inv in Hy. simpl in Hy. subst y.
    rewrite app_comm_cons, app_assoc, agg_last_snoc. simpl. auto.
Qed.

Section Pick.
Variable better : float -> float -> bool.
Variable R : float -> float -> bool.
Hypothesis R_refl : forall x, x <> NaN -> R x x = true.
Hypothesis R_trans : forall x y z, R x y = true -> R y z = true -> R x z = true.
Hypothesis better_R : forall x acc,
  x <> NaN -> acc <> NaN -> better x acc = true -> R acc x = true.
Hypothesis not_better_R : forall x acc,
  x <> NaN -> acc <> NaN -> better x acc = false -> R x acc = true.

Lemma pick_spec (s : list float) :
  let m := foldl (skipna_step better) NaN s in
  (m = NaN -> Forall (fun y => y = NaN) s) /\
  (m <> NaN -> m ∈ s /\ forall y, y ∈ s -> y <> NaN -> R y m = true).
Proof.
  induction s as [|x s IH] using rev_ind; [done|].
  rewrite foldl_app. cbn [foldl]. cbv zeta in IH.
  set (m := foldl (skipna_step better) NaN s) in *.
  destruct IH as [IHn IHv]. unfold skipna_step.
  destruct (isna x) eqn:Hx.
  { apply isna_true in Hx. subst x. split.
    - intros Hm. apply Forall_app. auto.
    - intros Hm. destruct (IHv Hm) as [Hin Hle]. split; [rewrite elem_of_app, list_elem_of_singleton; auto|].
      intros y [Hy| ->%list_elem_of_singleton]%elem_of_app; auto; done. }
  apply isna_false in Hx. destruct (isna m) eqn:Hm.
  { apply isna_true in Hm. split; [done|]. intros _. split; [rewrite elem_of_app, list_elem_of_singleton; auto|].
    intros y [Hy| ->%list_elem_of_singleton]%elem_of_app Hyn; [|auto].
    specialize (IHn Hm). rewrite Forall_forall in IHn. by apply IHn in Hy. }
  apply isna_false in Hm. destruct (IHv Hm) as [Hin Hle].
  destruct (better x m) eqn:Hb.
  - split; [done|]. intros _. split; [rewrite elem_of_app, list_elem_of_singleton; auto|].
    intros y [Hy| ->%list_elem_of_singleton]%elem_of_app Hyn; [|auto].
    apply R_trans with m; auto.
  - split; [done|]. intros _. split; [rewrite elem_of_app, list_elem_of_singleton; auto|].
    intros y [Hy| ->%list_elem_of_singleton]%elem_of_app Hyn; auto.
Qed.
End Pick.

Lemma agg_max_spec (s : list float) :
  (agg_max s = NaN -> Forall (fun y => y = NaN) s) /\
  (agg_max s <> NaN -> max_value s (agg_max s)).
Proof.
  destruct (pick_spec (fun x acc => flt acc x) (fun y m => fle y m)) with (s := s)
    as [Hn Hv].
  - apply fle_refl.
  - apply fle_trans.
  - intros x acc _ _. apply flt_fle.
  - intros x acc Hx Hacc. by apply not_flt_fle.
  - split; [done|]. intros H. destruct (Hv H). by split_and!.
Qed.

Lemma agg_min_spec (s : list float) :
  (agg_min s = NaN -> Forall (fun y => y = NaN) s) /\
  (agg_min s <> NaN -> min_value s (agg_min s)).
Proof.
  destruct (pick_spec (fun x acc => flt x acc) (fun y m => fle m y)) with (s := s)
    as [Hn Hv].
  - apply fle_refl.
  - intros x y z H1 H2. by apply fle_trans with y.
  - intros x acc _ _. apply flt_fle.
  - intros x acc Hx Hacc. by apply not_flt_fle.
  - split; [done|]. intros H. destruct (Hv H). by split_and!.
Qed.

Lemma max_value_agg (s : list float) (x : float) : max_value s x -> agg_max s = x.
Proof.
  intros (Hin & Hx & Hle). destruct (agg_max_spec s) as [Hn Hv].
  destruct (decide (agg_max s = NaN)) as [E|E].
  - apply Hn in E. rewrite Forall_forall in E. by apply E in Hin.
  - destruct (Hv E) as (Hin' & _ & Hle'). apply fle_antisym; auto.
Qed.

Lemma min_value_agg (s : list float) (x : float) : min_value s x -> agg_min s = x.
Proof.
  intros (Hin & Hx & Hle). destruct (agg_min_spec s) as [Hn Hv].
  destruct (decide (agg_min s = NaN)) as [E|E].
  - apply Hn in E. rewrite Forall_forall in E. by apply E in Hin.
  - destruct (Hv E) as (Hin' & _ & Hle'). apply fle_antisym; auto.
Qed.

End Aggregation.

(** ** Resampling *)

Section Resample.

Lemma insert_by_ts_perm (b : Bar) (l : list Bar) : insert_by_ts b l ≡ₚ b :: l.
Proof.
  induction l as [|c l IH]; simpl; [done|].
  destruct (decide _); [done|]. rewrite IH. apply Permutation_swap.
Qed.

Lemma sort_index_perm (h : list Bar) : sort_index h ≡ₚ h.
Proof.
  induction h as [|b h IH]; simpl; [done|].
  rewrite insert_by_ts_perm. by rewrite IH.
Qed.

Lemma insert_by_ts_sorted (b : Bar) (l : list Bar) :
  StronglySorted by_ts l -> StronglySorted by_ts (insert_by_ts b l).
Proof.
  induction 1 as [|c l Hl IH Hc]; simpl.
  - repeat constructor.
  - destruct (decide (ts b <= ts c)) as [Hle|Hgt].
    + constructor; [by constructor|]. constructor; [done|].
      eapply Forall_impl; [exact Hc|]. unfold by_ts. intros; simpl in *; lia.
    + constructor; [done|]. rewrite insert_by_ts_perm.
      constructor; [unfold by_ts; lia | done].
Qed.

(** The sort is stable: the rows of one timestamp keep their listing
    order. *)
Lemma insert_by_ts_stable (t : Z) (b : Bar) (l : list Bar) :
  filter (fun x => ts x = t) (insert_by_ts b l)
  = filter (fun x => ts x = t) (b :: l).
Proof.
  induction l as [|c l IH]; simpl; [done|].
  destruct (decide (ts b <= ts c)) as [Hle|Hgt]; [done|].
  destruct (decide (ts c = t)) as [Hc|Hc].
  - rewrite (filter_cons_True _ c) by done. rewrite IH.
    rewrite (filter_cons_False _ b) by lia.
    rewrite (filter_cons_False _ b) by lia.
    by rewrite (filter_cons_True _ c) by done.
  - rewrite (filter_cons_False _ c) by done. rewrite IH.
    destruct (decide (ts b = t)).
    + rewrite !(filter_cons_True _ b) by done.
      by rewrite (filter_cons_False _ c) by done.
    + rewrite !(filter_cons_False _ b) by done.
      by rewrite (filter_cons_False _ c) by done.
Qed.

Lemma sort_index_stable (t : Z) (h : list Bar) :
  filter (fun x => ts x = t) (sort_index h) = filter (fun x => ts x = t) h.
Proof.
  induction h as [|b h IH]; [done|]. cbn [sort_index foldr].
  rewrite insert_by_ts_stable. fold (sort_index h).
  destruct (decide (ts b = t)).
  - rewrite !(filter_cons_True _ b) by done. by rewrite IH.
  - rewrite !(filter_cons_False _ b) by done. by rewrite IH.
Qed.

Lemma sort_index_sorted (h : list Bar) : StronglySorted by_ts (sort_index h).
Proof.
  induction h as [|b h IH]; simpl; [constructor|]. by apply insert_by_ts_sorted.
Qed.

Lemma sorted_last_max (l : list Bar) (d b : Bar) :
  StronglySorted by_ts l -> b ∈ l -> ts b <= ts (List.last l d).
Proof.
  induction 1 as [|c l Hl IH Hc]; [by intros ?%elem_of_nil|].
  intros [->|Hb]%elem_of_cons.
  - destruct l as [|c' l]; [simpl; lia|].
    change (List.last (c :: c' :: l) d) with (List.last (c' :: l) d).
    rewrite Forall_forall in Hc.
    assert (List.last (c' :: l) d ∈ c' :: l) as Hin.
    { clear. revert c'. induction l as [|x l IHl]; intros c'; [by left|].
      change (List.last (c' :: x :: l) d) with (List.last (x :: l) d).
      right. apply IHl. }
    apply Hc in Hin. exact Hin.
  - destruct l as [|c' l]; [by apply elem_of_nil in Hb|]. by apply IH.
Qed.

Lemma bin_of_spec (t k : Z) :
  bin_of t = k <-> freq_4h * k <= t < freq_4h * (k + 1).
Proof.
  unfold bin_of, freq_4h. split.
  - intros <-. pose proof (Z.mod_pos_bound t (4 * 3600)).
    pose proof (Z.div_mod t (4 * 3600)). lia.
  - intros H. symmetry. apply Z.div_unique with (t - 4 * 3600 * k); lia.
Qed.

Lemma bin_of_mono (t u : Z) : t <= u -> bin_of t <= bin_of u.
Proof. intros. apply Z.div_le_mono; [done|]. done. Qed.

Lemma group_elem (h : list Bar) (k : Z) (b : Bar) :
  b ∈ group h k <-> b ∈ h /\ freq_4h * k <= ts b < freq_4h * (k + 1).
Proof.
  unfold group. rewrite list_elem_of_filter, sort_index_perm, bin_of_spec. tauto.
Qed.

Lemma group_sorted (h : list Bar) (k : Z) : StronglySorted by_ts (group h k).
Proof.
  unfold group. induction (sort_index_sorted h) as [|c l Hl IH Hc]; [constructor|].
  destruct (decide (bin_of (ts c) = k)).
  - rewrite filter_cons_True by done. constructor; [done|].
    rewrite Forall_forall in Hc |- *. intros x [_ Hx]%list_elem_of_filter. auto.
  - by rewrite filter_cons_False.
Qed.

Lemma bins_elem (h : list Bar) (b : Bar) : b ∈ h -> bin_of (ts b) ∈ bins h.
Proof.
  intros Hb. rewrite <- sort_index_perm in Hb. unfold bins.
  pose proof (sort_index_sorted h) as Hs.
  destruct (sort_index h) as [|b0 s] eqn:E; [by apply elem_of_nil in Hb|].
  apply elem_of_seqZ.
  assert (ts b0 <= ts b) as H0.
  { apply elem_of_cons in Hb as [->|Hb]; [lia|].
    apply StronglySorted_inv in Hs as [_ Hall].
    rewrite Forall_forall in Hall. by apply Hall. }
  pose proof (sorted_last_max _ b0 b Hs Hb) as H1.
  replace (List.last (b0 :: s) b0) with (List.last s b0) in H1 by by destruct s.
  apply bin_of_mono in H0, H1. lia.
Qed.

Lemma data_4h_elem (h : list Bar) (row : Bar) :
  row ∈ data_4h h <->
  exists k, k ∈ bins h /\ row = agg_ohlc (k, group h k) /\ complete row = true.
Proof.
  unfold data_4h, dropna, resample_4h.
  rewrite list_elem_of_filter, list_elem_of_fmap. split.
  - intros [Hc (kg & -> & Hkg)].
    apply list_elem_of_fmap in Hkg as (k & -> & Hk). eauto.
  - intros (k & Hk & -> & Hc). split; [done|].
    exists (k, group h k). split; [done|]. apply list_elem_of_fmap. eauto.
Qed.

End Resample.

(** * The indicator columns *)

Section Indicators.
Local Open Scope Qc_scope.

(** C5. Whatever the fetched history, when its resampled close series is
    the numbers [cs], the EMA_50 column of the tool is the exponential
    moving average with smoothing factor [alpha = 2/(50+1)], seeded by the
    first close and without bias adjustment: [ema_ref] is [close_0] at
    position 0 and [alpha * close_i + (1 - alpha) * EMA_(i-1)] at every
    later position. *)
Theorem EMA_50_recurrence (history : list Bar) (cs : list Qc) (i : nat) :
  map Close (data_4h history) = map Fin cs ->
  (i < length cs)%nat ->
  map r_EMA_50 (with_indicators (data_4h history)) !! i
  = Some (Fin (ema_ref alpha_50 (closes cs) i)).
Proof.
  intros Hcs Hi. rewrite with_indicators_EMA_50, Hcs. by apply EMA_50_Fin.
Qed.

Lemma EMA_50_recurrence_witness :
  map r_EMA_50 (with_indicators (data_4h sample_history)) !! 5%nat
  = Some (Fin (ema_ref alpha_50 (closes sample_closes) 5)).
Proof.
  apply (EMA_50_recurrence sample_history sample_closes 5).
  - vm_compute. reflexivity.
  - simpl. lia.
Defined.

(** C6. For every number [c] and every length [n], the EMA(50) of the
    constant close series [c, c, ..., c] of length [n] is [c] at every
    position. *)
Theorem EMA_50_constant (c : Qc) (n : nat) :
  EMA_50 (replicate n (Fin c)) = replicate n (Fin c).
Proof.
  unfold EMA_50, ewm_mean.
  replace (prep_values (replicate n (Fin c))) with (replicate n (Fin c)).
  - destruct n as [|n]; [reflexivity|].
    cbn [replicate]. f_equal. apply ewm_loop_constant.
  - unfold prep_values. by rewrite fmap_replicate.
Qed.

(** C3. Whatever the fetched history, when its resampled close series is
    the numbers [cs], at every position [i] with at least 14 per-step
    deltas before and at it the RSI column of the tool is the reference
    value: [gain_ref] is the arithmetic mean over the trailing 14 positions
    of the positive deltas (a negative one counted as 0), [loss_ref] the
    mean of the magnitudes of the negative deltas (a positive one counted
    as 0), [RS = gain/loss] and [RSI = 100 - 100/(1+RS)]; with a nonzero
    mean loss this is the number [100 - 100/(1 + gain/loss)]. *)
Theorem RSI_matches_reference (history : list Bar) (cs : list Qc) (i : nat) :
  map Close (data_4h history) = map Fin cs ->
  (14 <= i < length cs)%nat ->
  map r_RSI (with_indicators (data_4h history)) !! i
    = Some (rsi_ref (closes cs) i) /\
  (loss_ref (closes cs) i <> 0 ->
   rsi_ref (closes cs) i
   = Fin (Qc_of_Z 100
          - Qc_of_Z 100 / (1 + gain_ref (closes cs) i / loss_ref (closes cs) i))).
Proof.
  intros Hcs Hi. split.
  - rewrite with_indicators_RSI, Hcs, RSI_Fin by lia.
    by rewrite decide_True by lia.
  - intros Hl. unfold rsi_ref. rewrite fdiv_Fin by done.
    unfold f1, f100, zf. rewrite Z2Qc_inj_1. cbn [fadd].
    assert (1 + gain_ref (closes cs) i / loss_ref (closes cs) i <> 0) as Hx.
    { pose proof (gain_ref_nonneg (closes cs) i) as Hg.
      assert (0 < loss_ref (closes cs) i) as Hpos.
      { destruct (Qcle_lt_or_eq 0 (loss_ref (closes cs) i)); [|done|congruence].
        apply Qcmult_nonneg_nonneg.
        - apply sum_range_nonneg, down_move_nonneg.
        - apply Qclt_le_weak, Qc14_inv_pos. }
      apply not_symmetry, Qclt_not_eq, Qcplus_pos_nonneg; [done|].
      apply Qcmult_nonneg_nonneg; [done|]. by apply Qclt_le_weak, Qcinv_pos. }
    rewrite fdiv_Fin by done. reflexivity.
Qed.

Lemma RSI_matches_reference_witness :
  map r_RSI (with_indicators (data_4h sample_history)) !! 15%nat
    = Some (rsi_ref (closes sample_closes) 15) /\
  (loss_ref (closes sample_closes) 15 <> 0 ->
   rsi_ref (closes sample_closes) 15
   = Fin (Qc_of_Z 100
          - Qc_of_Z 100 / (1 + gain_ref (closes sample_closes) 15
                               / loss_ref (closes sample_closes) 15))).
Proof.
  apply (RSI_matches_reference sample_history sample_closes 15).
  - vm_compute. reflexivity.
  - simpl. lia.
Defined.

(** C4. Whatever the fetched history, when its resampled close series is
    the numbers [cs]: at every position where the trailing 14-period mean
    loss computed by the tool is a strictly positive number, the RSI of the
    tool is a number in the closed interval [0, 100]; and at every position
    closing 14 strictly rising steps the mean loss is zero and the RSI is
    100 itself, the value the formula tends to. *)
Theorem RSI_bounded_and_saturating (history : list Bar) (cs : list Qc) (i : nat) :
  map Close (data_4h history) = map Fin cs ->
  (i < length cs)%nat ->
  (forall l, loss (map Close (data_4h history)) !! i = Some (Fin l) -> 0 < l ->
     exists r, map r_RSI (with_indicators (data_4h history)) !! i = Some (Fin r)
               /\ 0 <= r <= Qc_of_Z 100) /\
  ((14 <= i)%nat ->
   (forall j, (i - 14 <= j < i)%nat -> nth j cs 0 < nth (S j) cs 0) ->
   map r_RSI (with_indicators (data_4h history)) !! i = Some f100).
Proof.
  intros Hcs Hi. rewrite with_indicators_RSI, Hcs, RSI_Fin, loss_Fin by done.
  split.
  - intros l Hl Hpos. destruct (decide (13 <= i)%nat); [|done].
    injection Hl as <-.
    destruct (rsi_ref_bounded (closes cs) i Hpos) as (r & -> & Hr). eauto.
  - intros H14 Hup. rewrite decide_True by lia. f_equal.
    by apply rsi_ref_rising.
Qed.

Lemma RSI_bounded_and_saturating_witness :
  (exists r, map r_RSI (with_indicators (data_4h sample_history)) !! 15%nat
             = Some (Fin r) /\ 0 <= r <= Qc_of_Z 100) /\
  map r_RSI (with_indicators (data_4h rising_history)) !! 15%nat = Some f100.
Proof.
  split.
  - apply (proj1 (RSI_bounded_and_saturating sample_history sample_closes 15
                    ltac:(vm_compute; reflexivity) ltac:(simpl; lia))
                 (loss_ref (closes sample_closes) 15)).
    + vm_compute. reflexivity.
    + vm_compute. reflexivity.
  - apply (proj2 (RSI_bounded_and_saturating rising_history rising_closes 15
                    ltac:(vm_compute; reflexivity) ltac:(simpl; lia))).
    + lia.
    + intros j Hj.
      do 15 (destruct j as [|j]; [vm_compute; reflexivity|]). lia.
Defined.

End Indicators.

(** ** Rounding *)

Section Rounding.


End Rounding.

(** ** The warm-up of the rolling means *)

Section WarmUp.

Lemma rolling_mean_warm_up (w : nat) (s : list float) (i : nat) :
  (S i < w)%nat -> (i < length s)%nat -> rolling_mean w s !! i = Some NaN.
Proof.
  intros Hw Hi. unfold rolling_mean.
  rewrite list_lookup_fmap, lookup_seq_lt by done.
  cbn [fmap option_fmap option_map]. f_equal. change (0 + i)%nat with i.
  unfold rolling_mean_at, rolling_window.
  rewrite decide_False; [done|].
  pose proof (length_filter (fun x => notna x = true)
                (drop (S i - w) (take (S i) (prep_values s)))) as H.
  rewrite length_drop, length_take in H. lia.
Qed.

Lemma RSI_before_14th_row (close : list float) (i : nat) :
  (i < 13)%nat -> (i < length close)%nat -> RSI close !! i = Some NaN.
Proof.
  intros H13 Hi. unfold RSI, rs, gain, loss.
  rewrite list_lookup_fmap, lookup_zip_with.
  rewrite !rolling_mean_warm_up; [done|lia|..|lia|].
  - unfold where_, delta, diff. by rewrite !length_map, length_diff_from.
  - unfold where_, delta, diff. by rewrite !length_map, length_diff_from.
Qed.

End WarmUp.

(** ** Finite prices *)

Section Finite.
Local Open Scope Qc_scope.




End Finite.

(** * The resampled frame *)

Section Resampled.

(** C2, as the specification states it, fails when the first bar of a
    window has no open: the aggregation skips the missing cell and takes
    the open of the second bar, and the window is kept. *)
Lemma first_open_skips_missing :
  exists row b0,
    row ∈ data_4h gap_history /\ ts row = freq_4h * 0 /\
    head (group gap_history 0) = Some b0 /\
    Open b0 = NaN /\ Open row = zf 1905 /\ Open row <> Open b0.
Proof.
  exists (mkBar 0 (zf 1905) (zf 1907) (zf 1897) (zf 1903)),
         (mkBar 3600 NaN (zf 1902) (zf 1897) (zf 1901)).
  split_and!; try reflexivity; [|discriminate].
  vm_compute. apply list_elem_of_here.
Qed.

(** C2, amended. For every history and every 4-hour window [k]: the
    window holds the bars stamped in [[4h*k, 4h*(k+1))], elapsed time
    counted from the origin, in time order, bars of one timestamp in the
    order in which they are listed; the resampled frame has a row for the
    window exactly when each of the four fields is present in at least one
    of its bars, and then open is the first open that is not missing, high
    the greatest high, low the least low and close the last close that is
    not missing; a window without bars has no row; and when the first bar
    has an open (the last bar a close), that is the open (the close) of
    the row. *)
Theorem resample_ohlc (history : list Bar) (k : Z) :
  let window := group history k in
  (forall b, b ∈ window <->
     b ∈ history /\ freq_4h * k <= ts b < freq_4h * (k + 1)) /\
  StronglySorted by_ts window /\
  (forall t, bin_of t = k ->
     filter (fun b => ts b = t) window = filter (fun b => ts b = t) history) /\
  (forall row,
     row ∈ data_4h history /\ ts row = freq_4h * k <->
     ts row = freq_4h * k /\
     first_value (map Open window) (Open row) /\
     max_value (map High window) (High row) /\
     min_value (map Low window) (Low row) /\
     last_value (map Close window) (Close row)) /\
  (window = [] -> forall row, row ∈ data_4h history -> ts row <> freq_4h * k) /\
  (forall row b0 bl,
     row ∈ data_4h history -> ts row = freq_4h * k ->
     head window = Some b0 -> last window = Some bl ->
     (Open b0 <> NaN -> Open row = Open b0) /\
     (Close bl <> NaN -> Close row = Close bl)).
Proof.
  intros window.
  assert (forall row,
    row ∈ data_4h history /\ ts row = freq_4h * k <->
    ts row = freq_4h * k /\
    first_value (map Open window) (Open row) /\
    max_value (map High window) (High row) /\
    min_value (map Low window) (Low row) /\
    last_value (map Close window) (Close row)) as Hrow.
  { intros row. split.
    - intros [(k' & _ & -> & Hc)%data_4h_elem Hts].
      cbn [agg_ohlc ts fst snd] in Hts. unfold freq_4h in Hts.
      assert (k' = k) as -> by lia. fold window in Hc |- *.
      unfold complete in Hc. rewrite !andb_true_iff, !notna_true in Hc.
      cbn [agg_ohlc ts Open High Low Close fst snd] in *.
      destruct Hc as [[[Ho Hh] Hl] Hcl]. split_and!.
      + unfold freq_4h. lia.
      + by apply agg_first_value.
      + by apply agg_max_spec.
      + by apply agg_min_spec.
      + by apply agg_last_value.
    - intros (Hts & Ho & Hh & Hl & Hcl). split; [|done].
      apply data_4h_elem. exists k.
      assert (row = agg_ohlc (k, window)) as Hrow.
      { destruct row as [t o hi lo c]. cbn [ts Open High Low Close] in *.
        unfold agg_ohlc. cbn [fst snd].
        rewrite (first_value_agg _ _ Ho), (max_value_agg _ _ Hh),
          (min_value_agg _ _ Hl), (last_value_agg _ _ Hcl). by subst t. }
      split_and!; [|done|].
      + destruct Ho as (pre & post & E & _).
        destruct window as [|b w] eqn:Ew.
        { by destruct pre. }
        assert (b ∈ group history k) as [Hb Hk%bin_of_spec]%group_elem.
        { fold window. rewrite Ew. apply list_elem_of_here. }
        rewrite <- Hk. by apply bins_elem.
      + unfold complete. rewrite !andb_true_iff, !notna_true.
        destruct Ho as (_ & _ & _ & _ & ?), Hh as (_ & ? & _),
          Hl as (_ & ? & _), Hcl as (_ & _ & _ & _ & ?). done. }
  split_and!.
  - intros b. apply group_elem.
  - apply group_sorted.
  - intros t Ht. unfold window, group. rewrite list_filter_filter.
    rewrite <- (sort_index_stable t history). apply list_filter_iff.
    intros b. split; [by intros [? _]|]. intros E. split; [done|]. by rewrite E.
  - exact Hrow.
  - intros Hw row Hin Hts.
    destruct (proj1 (Hrow row) (conj Hin Hts)) as (_ & (pre & post & E & _) & _).
    rewrite Hw in E. by destruct pre.
  - intros row b0 bl Hin Hts Hhd Hlast.
    destruct (proj1 (Hrow row) (conj Hin Hts)) as (_ & Ho & _ & _ & Hcl).
    apply first_value_agg in Ho. apply last_value_agg in Hcl. split.
    + intros Hb0. rewrite <- Ho. apply first_value_agg.
      destruct window as [|b w]; [done|]. injection Hhd as ->.
      by exists [], (map Open w).
    + intros Hbl. rewrite <- Hcl. apply last_value_agg.
      apply last_Some in Hlast as [w ->].
      exists (map Close w), []. by rewrite map_app.
Qed.

End Resampled.

(** * The output table *)

Section Table.


Lemma length_final_df (d4 : list Bar) :
  length (final_df d4) = (12 `min` length d4)%nat.
Proof.
  unfold final_df, tail.
  rewrite length_map, length_drop, length_with_indicators. lia.
Qed.

Lemma final_df_lookup (d4 : list Bar) (i : nat) (r : IndRow) :
  final_df d4 !! i = Some r ->
  exists r0,
    with_indicators d4 !! (length d4 - length (final_df d4) + i)%nat = Some r0 /\
    r = round_row r0.
Proof.
  rewrite length_final_df. unfold final_df, tail.
  rewrite list_lookup_fmap, lookup_drop, length_with_indicators.
  replace (length d4 - 12 `min` length d4)%nat with (length d4 - 12)%nat by lia.
  destruct (with_indicators d4 !! _) as [r0|]; [|done].
  intros [= <-]. eauto.
Qed.


End Table.

(** * The two tools *)

Section Tools.

(** C7. Whenever the market-data provider returns zero bars, the indicator
    tool returns exactly ["Error: Could not fetch data."]; the run has
    printed its log line and called the provider, and nothing else: no
    resampling, no indicator computation, no rendering, whatever those
    stages would have done. *)
Theorem no_bars_no_computation (fault : faults)
    (yf_history : string -> string -> string -> outcome (list Bar))
    (to_string : list IndRow -> string) (query : string) :
  yf_history "GC=F" "1mo" "1h" = Return [] ->
  let run := XAUPriceFetchTool._run fault yf_history to_string query in
  result run = Return "Error: Could not fetch data." /\
  trace run = [price_log; price_fetch] /\
  (EvResample ∉ trace run) /\ (EvIndicators ∉ trace run) /\ (EvToString ∉ trace run).
Proof.
  intros Hfetch run.
  assert (run = ([price_log; price_fetch], Return "Error: Could not fetch data."))
    as ->.
  { unfold run, XAUPriceFetchTool._run. rewrite Hfetch. reflexivity. }
  split_and!; try reflexivity.
  all: intros H; repeat (apply elem_of_cons in H as [H|H]; [discriminate H|]).
  all: by apply elem_of_nil in H.
Qed.

Lemma no_bars_no_computation_witness :
  let run := XAUPriceFetchTool._run no_fault (fun _ _ _ => Return [])
               (fun _ => "") "gold" in
  result run = Return "Error: Could not fetch data." /\
  trace run = [price_log; price_fetch] /\
  (EvResample ∉ trace run) /\ (EvIndicators ∉ trace run) /\ (EvToString ∉ trace run).
Proof.
  apply (no_bars_no_computation no_fault (fun _ _ _ => Return []) (fun _ => "")
           "gold").
  reflexivity.
Defined.

(** C8. Whenever the search provider returns zero results (the client was
    built and the search answered with an empty list), the news tool
    returns a text that contains "Assume Neutral" and no "NEWS TITLE"
    record. *)
Theorem no_news_assume_neutral
    (ddgs_text : string -> nat -> string -> outcome (list (gmap string string)))
    (query : string) :
  ddgs_text query 3%nat "d" = Return [] ->
  exists text,
    result (NewsSearchTool._run no_fault ddgs_text query) = Return text /\
    contains "Assume Neutral" text = true /\
    contains "NEWS TITLE" text = false.
Proof.
  intros Hsearch. exists "No news found in the last 24 hours. Assume Neutral.".
  split; [|by vm_compute].
  unfold NewsSearchTool._run. cbn. rewrite Hsearch. reflexivity.
Qed.

Lemma no_news_assume_neutral_witness :
  exists text,
    result (NewsSearchTool._run no_fault (fun _ _ _ => Return []) "gold")
      = Return text /\
    contains "Assume Neutral" text = true /\
    contains "NEWS TITLE" text = false.
Proof.
  apply (no_news_assume_neutral (fun _ _ _ => Return []) "gold"). reflexivity.
Defined.

(** C9, as the specification states it, fails for an exception that does
    not derive from [Exception]: a [KeyboardInterrupt] raised during the
    fetch is not caught by [except Exception] and reaches the caller. *)
Lemma keyboard_interrupt_propagates :
  result (XAUPriceFetchTool._run no_fault (fun _ _ _ => Raise KeyboardInterrupt)
            (fun _ => "") "gold")
  = Raise KeyboardInterrupt.
Proof. reflexivity. Qed.

(** What each run returns, by the exception that arises in its body. *)
Lemma price_run_result (fault : faults)
    (yf_history : string -> string -> string -> outcome (list Bar))
    (to_string : list IndRow -> string) (query : string) :
  let price := XAUPriceFetchTool._run fault yf_history to_string query in
  (exists e, price_raises fault yf_history e /\
     result price = if is_Exception e
                    then Return ("Error processing data: " +:+ exn_str e)
                    else Raise e) \/
  ((forall e, ~ price_raises fault yf_history e) /\ exists s, result price = Return s).
Proof.
  intros price. unfold price, XAUPriceFetchTool._run.
  destruct (yf_history "GC=F" "1mo" "1h") as [h|e] eqn:Hfetch.
  2:{ left. exists e. split; [by apply raises_fetch|].
      unfold try_except, result. cbn. by destruct (is_Exception e). }
  destruct h as [|b h].
  { right. split; [|by eexists]. intros e He.
    inversion He; congruence. }
  assert (b :: h <> []) as Hne by done.
  unfold stage. cbn [empty].
  destruct (fault EvResample) as [e|] eqn:H1.
  { left. exists e. split; [by eapply raises_resample|].
    unfold try_except, result. cbn. by destruct (is_Exception e). }
  destruct (fault EvIndicators) as [e|] eqn:H2.
  { left. exists e. split; [by eapply raises_indicators|].
    unfold try_except, result. cbn. by destruct (is_Exception e). }
  destruct (fault EvToString) as [e|] eqn:H3.
  { left. exists e. split; [by eapply raises_to_string|].
    unfold try_except, result. cbn. by destruct (is_Exception e). }
  right. split; [|by eexists]. intros e He. inversion He; congruence.
Qed.

Lemma news_run_result (fault : faults)
    (ddgs_text : string -> nat -> string -> outcome (list (gmap string string)))
    (query : string) :
  let news := NewsSearchTool._run fault ddgs_text query in
  (exists e, news_raises fault ddgs_text query e /\
     result news = if is_Exception e
                   then Return ("Search Error: " +:+ exn_str e)
                   else Raise e) \/
  ((forall e, ~ news_raises fault ddgs_text query e) /\
   exists s, result news = Return s).
Proof.
  intros news. unfold news, NewsSearchTool._run, stage.
  destruct (fault EvDDGS) as [e|] eqn:H1.
  { left. exists e. split; [by apply raises_client|].
    unfold try_except, result. cbn. by destruct (is_Exception e). }
  destruct (ddgs_text query 3%nat "d") as [rs|e] eqn:Hs.
  2:{ left. exists e. split; [by apply raises_search|].
      unfold try_except, result. cbn. by destruct (is_Exception e). }
  destruct (fault EvRecords) as [e|] eqn:H2.
  { left. exists e. split; [by eapply raises_records|].
    unfold try_except, result. cbn. by destruct (is_Exception e). }
  right. split.
  - intros e He. inversion He; congruence.
  - unfold try_except, result. cbn. case_bool_decide; by eexists.
Qed.

Lemma price_raises_unique (fault : faults)
    (yf_history : string -> string -> string -> outcome (list Bar)) (e e' : exn) :
  price_raises fault yf_history e -> price_raises fault yf_history e' -> e = e'.
Proof. intros H H'. inversion H; inversion H'; congruence. Qed.

Lemma news_raises_unique (fault : faults)
    (ddgs_text : string -> nat -> string -> outcome (list (gmap string string)))
    (query : string) (e e' : exn) :
  news_raises fault ddgs_text query e -> news_raises fault ddgs_text query e' ->
  e = e'.
Proof. intros H H'. inversion H; inversion H'; congruence. Qed.

(** C9, amended. For every input and every exception [e] that arises
    inside a tool body, in the call to the provider or in any stage after
    or before it (resampling, indicators, rendering; building the client,
    formatting the results): when [e] derives from [Exception] the tool
    returns a text in place of raising, "Error processing data: " followed
    by [str(e)] for the indicator tool and "Search Error: " followed by
    [str(e)] for the news tool; when [e] does not derive from [Exception]
    it reaches the caller.  No exception deriving from [Exception] ever
    leaves either tool. *)
Theorem exceptions_returned_as_text (fault : faults)
    (yf_history : string -> string -> string -> outcome (list Bar))
    (to_string : list IndRow -> string)
    (ddgs_text : string -> nat -> string -> outcome (list (gmap string string)))
    (query : string) (e : exn) :
  let price := XAUPriceFetchTool._run fault yf_history to_string query in
  let news := NewsSearchTool._run fault ddgs_text query in
  (price_raises fault yf_history e ->
   result price = if is_Exception e
                  then Return ("Error processing data: " +:+ exn_str e)
                  else Raise e) /\
  (news_raises fault ddgs_text query e ->
   result news = if is_Exception e
                 then Return ("Search Error: " +:+ exn_str e)
                 else Raise e) /\
  (is_Exception e = true -> result price <> Raise e /\ result news <> Raise e).
Proof.
  intros price news.
  pose proof (price_run_result fault yf_history to_string query) as Hp.
  pose proof (news_run_result fault ddgs_text query) as Hn.
  fold price in Hp. fold news in Hn. split_and!.
  - intros He. destruct Hp as [(e' & He' & Hr)|[Hnone _]].
    + by rewrite (price_raises_unique _ _ _ _ He He').
    + by destruct (Hnone e).
  - intros He. destruct Hn as [(e' & He' & Hr)|[Hnone _]].
    + by rewrite (news_raises_unique _ _ _ _ _ He He').
    + by destruct (Hnone e).
  - intros Hexc. split.
    + destruct Hp as [(e' & _ & ->)|[_ [s ->]]]; [|done].
      destruct (is_Exception e') eqn:E; [done|]. intros [= ->]. congruence.
    + destruct Hn as [(e' & _ & ->)|[_ [s ->]]]; [|done].
      destruct (is_Exception e') eqn:E; [done|]. intros [= ->]. congruence.
Qed.

(** C10. The indicator tool ignores its query: for every two queries and
    the same market-data provider the two runs are the same, in what they
    return and in what they do; and the only call to the provider is for
    ticker "GC=F", period "1mo" and interval "1h". *)
Theorem query_is_ignored (fault : faults)
    (yf_history : string -> string -> string -> outcome (list Bar))
    (to_string : list IndRow -> string) (q1 q2 : string) :
  XAUPriceFetchTool._run fault yf_history to_string q1
    = XAUPriceFetchTool._run fault yf_history to_string q2 /\
  exists rest,
    trace (XAUPriceFetchTool._run fault yf_history to_string q1)
      = price_log :: price_fetch :: rest /\
    forall ticker period interval, EvHistory ticker period interval ∉ rest.
Proof.
  split; [reflexivity|].
  unfold XAUPriceFetchTool._run.
  destruct (yf_history _ _ _) as [h|e].
  - destruct h as [|b h].
    + exists []. split; [reflexivity|]. intros ??? H. by apply elem_of_nil in H.
    + unfold stage. cbn [empty].
      destruct (fault EvResample) as [e1|];
        [|destruct (fault EvIndicators) as [e2|];
          [|destruct (fault EvToString) as [e3|]]].
      all: try (eexists; split;
                [unfold try_except, trace; cbn;
                 match goal with
                 | |- context [is_Exception ?e] => destruct (is_Exception e)
                 end; reflexivity|]).
      all: try (eexists; split; [reflexivity|]).
      all: intros ??? H;
        repeat (apply elem_of_cons in H as [H|H]; [discriminate H|]);
        by apply elem_of_nil in H.
  - exists []. split.
    + unfold try_except, trace. cbn. by destruct (is_Exception e).
    + intros ??? H. by apply elem_of_nil in H.
Qed.

End Tools.

(** * Further properties of the resampled frame *)

Section ResampledMore.

Lemma StronglySorted_filter_keep {A} (R : A -> A -> Prop) (P : A -> Prop)
    `{!forall x, Decision (P x)} (l : list A) :
  StronglySorted R l -> StronglySorted R (filter P l).
Proof.
  induction 1 as [|c l Hl IH Hc]; [constructor|].
  destruct (decide (P c)).
  - rewrite filter_cons_True by done. constructor; [done|].
    rewrite Forall_forall in Hc |- *. intros x [_ Hx]%list_elem_of_filter. auto.
  - by rewrite filter_cons_False.
Qed.

Lemma seq_sorted (m n : nat) : StronglySorted lt (seq m n).
Proof.
  revert m. induction n as [|n IH]; intros m; [constructor|].
  cbn [seq]. constructor; [apply IH|].
  apply Forall_forall. intros x Hx%elem_of_seq. lia.
Qed.

Lemma seqZ_sorted (m n : Z) : StronglySorted Z.lt (seqZ m n).
Proof.
  unfold seqZ. apply StronglySorted_fmap with (R1 := lt); [|apply seq_sorted].
  intros x y Hxy. lia.
Qed.

Lemma bins_sorted (h : list Bar) : StronglySorted Z.lt (bins h).
Proof.
  unfold bins. destruct (sort_index h); [constructor|]. apply seqZ_sorted.
Qed.

Lemma fle_notna (x y : float) : fle x y = true -> x <> NaN /\ y <> NaN.
Proof. by destruct x, y. Qed.

Lemma value_in_column (f : Bar -> float) (g : list Bar) (x : float) :
  x ∈ map f g -> exists b, b ∈ g /\ f b = x.
Proof. intros (b & -> & Hb)%list_elem_of_fmap. eauto. Qed.

Lemma first_value_in (s : list float) (x : float) : first_value s x -> x ∈ s.
Proof.
  intros (pre & post & -> & _). rewrite elem_of_app, elem_of_cons. auto.
Qed.

Lemma last_value_in (s : list float) (x : float) : last_value s x -> x ∈ s.
Proof.
  intros (pre & post & -> & _). rewrite elem_of_app, elem_of_cons. auto.
Qed.

(** What a row of the resampled frame is: the aggregate of some window,
    with its four cells characterised. *)
Lemma data_4h_row (h : list Bar) (row : Bar) :
  row ∈ data_4h h ->
  exists k,
    ts row = freq_4h * k /\
    first_value (map Open (group h k)) (Open row) /\
    max_value (map High (group h k)) (High row) /\
    min_value (map Low (group h k)) (Low row) /\
    last_value (map Close (group h k)) (Close row).
Proof.
  intros (k & _ & -> & Hc)%data_4h_elem. exists k.
  unfold complete in Hc. rewrite !andb_true_iff, !notna_true in Hc.
  cbn [agg_ohlc ts Open High Low Close fst snd] in *.
  destruct Hc as [[[Ho Hh] Hl] Hcl]. split_and!.
  - done.
  - by apply agg_first_value.
  - by apply agg_max_spec.
  - by apply agg_min_spec.
  - by apply agg_last_value.
Qed.

(** X1. The resampled frame is in strictly increasing time order, every
    row is stamped at a whole multiple of four hours of elapsed time
    counted from the origin (the local midnight that begins the first
    day) and has all four cells: at most one row per window, and none with
    a missing value. *)
Theorem data_4h_chronological (history : list Bar) :
  StronglySorted (fun a b => ts a < ts b) (data_4h history) /\
  forall row, row ∈ data_4h history ->
    complete row = true /\ exists k, ts row = freq_4h * k.
Proof.
  split.
  - unfold data_4h, dropna, resample_4h. apply StronglySorted_filter_keep.
    rewrite <- list_fmap_compose.
    apply StronglySorted_fmap with (R1 := Z.lt); [|apply bins_sorted].
    intros j k Hjk. cbn. unfold freq_4h. lia.
  - intros row (k & _ & -> & Hc)%data_4h_elem. split; [done|]. by exists k.
Qed.

Lemma length_filter_disjoint {A} (P Q : A -> Prop)
    `{!forall x, Decision (P x)} `{!forall x, Decision (Q x)} (l : list A) :
  (forall x, P x -> Q x -> False) ->
  (length (filter P l) + length (filter Q l) <= length l)%nat.
Proof.
  intros HPQ. induction l as [|x l IH]; [done|].
  destruct (decide (P x)) as [HP|HP], (decide (Q x)) as [HQ|HQ].
  - destruct (HPQ x HP HQ).
  - rewrite filter_cons_True, filter_cons_False by done. simpl. lia.
  - rewrite filter_cons_False, filter_cons_True by done. simpl. lia.
  - rewrite !filter_cons_False by done. simpl. lia.
Qed.

Lemma windows_partition (l : list Bar) (ks : list Z) :
  NoDup ks ->
  (sum_list (map (fun k => length (filter (fun b => bin_of (ts b) = k) l)) ks)
   <= length (filter (fun b => bin_of (ts b) ∈ ks) l))%nat.
Proof.
  induction 1 as [|k ks Hk Hnd IH]; [simpl; lia|].
  cbn [map sum_list sum_list_with].
  etrans; [apply Nat.add_le_mono_l, IH|].
  pose proof (length_filter_disjoint
                (fun b => bin_of (ts b) = k) (fun b => bin_of (ts b) ∈ ks)
                (filter (fun b => bin_of (ts b) ∈ k :: ks) l)) as H.
  rewrite !list_filter_filter in H.
  rewrite (list_filter_iff
             (fun b => bin_of (ts b) = k /\ bin_of (ts b) ∈ k :: ks)
             (fun b => bin_of (ts b) = k)) in H.
  2:{ intros b. split; [by intros [? _]|]. intros E. split; [done|].
      rewrite E. by left. }
  rewrite (list_filter_iff
             (fun b => bin_of (ts b) ∈ ks /\ bin_of (ts b) ∈ k :: ks)
             (fun b => bin_of (ts b) ∈ ks)) in H.
  2:{ intros b. split; [by intros [? _]|]. intros E. split; [done|]. by right. }
  apply H. intros b <- Hin. done.
Qed.

Lemma complete_rows_count (h : list Bar) (ks : list Z) :
  (length (filter (fun b => complete b = true)
             (map agg_ohlc (map (fun k => (k, group h k)) ks)))
   <= sum_list (map (fun k => length (group h k)) ks))%nat.
Proof.
  induction ks as [|k ks IH]; [done|].
  cbn [map sum_list sum_list_with].
  destruct (decide (complete (agg_ohlc (k, group h k)) = true)) as [Hc|Hc].
  - rewrite filter_cons_True by done. cbn [length].
    assert (group h k <> []) as Hne.
    { intros E. rewrite E in Hc. discriminate Hc. }
    destruct (group h k); [done|]. simpl in *. lia.
  - rewrite filter_cons_False by done. lia.
Qed.

(** X2. Resampling never makes rows: the resampled frame has at most as
    many rows as the fetched history has bars. *)
Theorem data_4h_length (history : list Bar) :
  (length (data_4h history) <= length history)%nat.
Proof.
  unfold data_4h, dropna, resample_4h.
  etrans; [apply complete_rows_count|].
  unfold group.
  etrans; [apply windows_partition|].
  - unfold bins. destruct (sort_index history); [constructor|]. apply NoDup_seqZ.
  - etrans; [apply length_filter|]. by rewrite sort_index_perm.
Qed.

Lemma agg_max_present (s : list float) (x : float) :
  x ∈ s -> x <> NaN -> agg_max s <> NaN.
Proof.
  intros Hin Hx E. destruct (agg_max_spec s) as [Hn _]. apply Hn in E.
  rewrite Forall_forall in E. auto.
Qed.

Lemma agg_min_present (s : list float) (x : float) :
  x ∈ s -> x <> NaN -> agg_min s <> NaN.
Proof.
  intros Hin Hx E. destruct (agg_min_spec s) as [Hn _]. apply Hn in E.
  rewrite Forall_forall in E. auto.
Qed.

Lemma complete_cells (b : Bar) :
  complete b = true <->
  Open b <> NaN /\ High b <> NaN /\ Low b <> NaN /\ Close b <> NaN.
Proof. unfold complete. rewrite !andb_true_iff, !notna_true. tauto. Qed.

(** X3. When no bar of the history has a missing cell, every window that
    holds a bar has a row in the resampled frame, stamped at the window's
    left edge, whose open is the open of the window's first bar and whose
    close is the close of its last bar (first and last in time, and among
    bars of one timestamp in listing order), whose high is the greatest
    high of the window and whose low is its least low. *)
Theorem complete_history_resample (history : list Bar) (k : Z) (b0 bl : Bar) :
  (forall b, b ∈ history -> complete b = true) ->
  head (group history k) = Some b0 ->
  last (group history k) = Some bl ->
  exists row,
    row ∈ data_4h history /\ ts row = freq_4h * k /\
    Open row = Open b0 /\ Close row = Close bl /\
    max_value (map High (group history k)) (High row) /\
    min_value (map Low (group history k)) (Low row).
Proof.
  intros Hall Hhd Hlast.
  assert (b0 ∈ group history k) as Hb0.
  { destruct (group history k); [done|]. injection Hhd as ->. by left. }
  assert (bl ∈ group history k) as Hbl.
  { apply last_Some in Hlast as [w ->]. rewrite elem_of_app, list_elem_of_singleton.
    auto. }
  pose proof Hb0 as [Hh0 Hk0%bin_of_spec]%group_elem.
  pose proof Hbl as [Hhl _]%group_elem.
  pose proof (proj1 (complete_cells _) (Hall _ Hh0)) as Hc0.
  pose proof (proj1 (complete_cells _) (Hall _ Hhl)) as Hcl.
  destruct Hc0 as (Ho0 & Hhi0 & Hlo0 & _), Hcl as (_ & _ & _ & Hcl).
  assert (agg_first (map Open (group history k)) = Open b0) as Eo.
  { apply first_value_agg. destruct (group history k) as [|b w]; [done|].
    injection Hhd as ->. by exists [], (map Open w). }
  assert (agg_last (map Close (group history k)) = Close bl) as Ec.
  { apply last_value_agg. apply last_Some in Hlast as [w ->].
    exists (map Close w), []. by rewrite map_app. }
  assert (agg_max (map High (group history k)) <> NaN) as Hmax.
  { apply agg_max_present with (High b0); [|done].
    apply list_elem_of_fmap. eauto. }
  assert (agg_min (map Low (group history k)) <> NaN) as Hmin.
  { apply agg_min_present with (Low b0); [|done].
    apply list_elem_of_fmap. eauto. }
  exists (agg_ohlc (k, group history k)).
  cbn [agg_ohlc ts Open High Low Close fst snd]. split_and!; try done.
  - apply data_4h_elem. exists k. split_and!; [|done|].
    + rewrite <- Hk0. by apply bins_elem.
    + apply complete_cells. cbn [agg_ohlc ts Open High Low Close fst snd].
      rewrite Eo, Ec. done.
  - by apply agg_max_spec.
  - by apply agg_min_spec.
Qed.

Lemma complete_history_resample_witness :
  exists row,
    row ∈ data_4h hourly_history /\ ts row = freq_4h * 0 /\
    Open row = Open (bar_at 0 1900) /\ Close row = Close (bar_at 3 1903) /\
    max_value (map High (group hourly_history 0)) (High row) /\
    min_value (map Low (group hourly_history 0)) (Low row).
Proof.
  apply (complete_history_resample hourly_history 0 (bar_at 0 1900) (bar_at 3 1903)).
  - intros b Hb. unfold hourly_history in Hb.
    repeat (apply elem_of_cons in Hb as [->|Hb]; [by vm_compute|]).
    by apply elem_of_nil in Hb.
  - vm_compute. reflexivity.
  - vm_compute. reflexivity.
Defined.

(** X4. Resampling keeps candles well formed: when every fetched bar has
    its low below its open and close and its high above them, so has
    every row of the resampled frame. *)
Theorem resample_keeps_candles (history : list Bar) (row : Bar) :
  (forall b, b ∈ history -> candle b) ->
  row ∈ data_4h history ->
  candle row.
Proof.
  intros Hall (k & _ & Ho & Hh & Hl & Hc)%data_4h_row.
  destruct Hh as (_ & Hhn & Hh), Hl as (_ & Hln & Hl).
  apply first_value_in, value_in_column in Ho as (bo & Hbo & Eo).
  apply last_value_in, value_in_column in Hc as (bc & Hbc & Ec).
  pose proof Hbo as [(Ho1 & Ho2 & _)%Hall _]%group_elem.
  pose proof Hbc as [(_ & _ & Hc1 & Hc2)%Hall _]%group_elem.
  unfold candle. rewrite <- Eo, <- Ec. split_and!.
  - apply fle_trans with (Low bo); [|done].
    apply Hl; [apply list_elem_of_fmap; eauto|]. by apply fle_notna in Ho1 as [? _].
  - apply fle_trans with (High bo); [done|].
    apply Hh; [apply list_elem_of_fmap; eauto|]. by apply fle_notna in Ho2 as [_ ?].
  - apply fle_trans with (Low bc); [|done].
    apply Hl; [apply list_elem_of_fmap; eauto|]. by apply fle_notna in Hc1 as [? _].
  - apply fle_trans with (High bc); [done|].
    apply Hh; [apply list_elem_of_fmap; eauto|]. by apply fle_notna in Hc2 as [_ ?].
Qed.

Lemma resample_keeps_candles_witness :
  candle (mkBar (freq_4h * 2) (zf 1901) (zf 1903) (zf 1898) (zf 1902)).
Proof.
  apply (resample_keeps_candles sample_history).
  - intros b Hb. unfold sample_history, sample_prices in Hb. cbn in Hb.
    repeat (apply elem_of_cons in Hb as [->|Hb]; [by vm_compute|]).
    by apply elem_of_nil in Hb.
  - vm_compute. do 2 right. left.
Defined.

(** A column that is missing in every bar empties the resampled frame. *)
Lemma data_4h_column_missing (h : list Bar) :
  (forall b, b ∈ h -> Open b = NaN) \/ (forall b, b ∈ h -> High b = NaN) \/
  (forall b, b ∈ h -> Low b = NaN) \/ (forall b, b ∈ h -> Close b = NaN) ->
  data_4h h = [].
Proof.
  intros Hmiss. destruct (data_4h h) as [|row rest] eqn:E; [done|]. exfalso.
  assert (row ∈ data_4h h) as Hrow by (rewrite E; by left).
  apply data_4h_row in Hrow as (k & _ & Ho & Hh & Hl & Hc).
  destruct Hmiss as [H|[H|[H|H]]].
  - destruct Ho as (pre & post & Eo & _ & Hn).
    assert (Open row ∈ map Open (group h k)) as Hin.
    { rewrite Eo, elem_of_app, elem_of_cons. auto. }
    apply value_in_column in Hin as (b & [Hb _]%group_elem & Eb).
    apply H in Hb. congruence.
  - destruct Hh as (Hin & Hn & _).
    apply value_in_column in Hin as (b & [Hb _]%group_elem & Eb).
    apply H in Hb. congruence.
  - destruct Hl as (Hin & Hn & _).
    apply value_in_column in Hin as (b & [Hb _]%group_elem & Eb).
    apply H in Hb. congruence.
  - destruct Hc as (pre & post & Ec & _ & Hn).
    assert (Close row ∈ map Close (group h k)) as Hin.
    { rewrite Ec, elem_of_app, elem_of_cons. auto. }
    apply value_in_column in Hin as (b & [Hb _]%group_elem & Eb).
    apply H in Hb. congruence.
Qed.

End ResampledMore.

(** * Further properties of the indicator columns *)

Section IndicatorsMore.
Local Open Scope Qc_scope.

(** X5. Whatever the close series holds, the RSI of each of its first 13
    rows is undefined: the 14-period rolling means need 14 rows. *)
Theorem RSI_warm_up (close : list float) (i : nat) :
  (i < 13)%nat -> (i < length close)%nat -> RSI close !! i = Some NaN.
Proof. apply RSI_before_14th_row. Qed.

Lemma RSI_warm_up_witness : RSI (map Fin sample_closes) !! 12%nat = Some NaN.
Proof. apply RSI_warm_up; simpl; lia. Defined.

(** X6. The first RSI is at the 14th row, and it is built from 13 deltas
    only: the missing delta of the first row counts as 0 in both sums, and
    the sums are still divided by 14. *)
Theorem RSI_first_value (cs : list Qc) :
  (13 < length cs)%nat ->
  gain (map Fin cs) !! 13%nat
    = Some (Fin (sum_range (up_move (closes cs)) 1 13 / Qc_of_Z 14)) /\
  loss (map Fin cs) !! 13%nat
    = Some (Fin (sum_range (down_move (closes cs)) 1 13 / Qc_of_Z 14)) /\
  RSI (map Fin cs) !! 13%nat = Some (rsi_ref (closes cs) 13).
Proof.
  intros Hlen. rewrite gain_Fin, loss_Fin, RSI_Fin by done.
  rewrite !decide_True by lia. split_and!; [| |done].
  - do 2 f_equal. unfold gain_ref. f_equal.
    change (13 - 13)%nat with 0%nat.
    change (sum_range (up_move (closes cs)) 0 14)
      with (up_move (closes cs) 0 + sum_range (up_move (closes cs)) 1 13).
    unfold up_move at 1. cbn [step_delta].
    destruct (Qc_ltb 0 0); ring.
  - do 2 f_equal. unfold loss_ref. f_equal.
    change (13 - 13)%nat with 0%nat.
    change (sum_range (down_move (closes cs)) 0 14)
      with (down_move (closes cs) 0 + sum_range (down_move (closes cs)) 1 13).
    unfold down_move at 1. cbn [step_delta].
    destruct (Qc_ltb 0 0); ring.
Qed.

Lemma RSI_first_value_witness :
  gain (map Fin sample_closes) !! 13%nat
    = Some (Fin (sum_range (up_move (closes sample_closes)) 1 13 / Qc_of_Z 14)) /\
  loss (map Fin sample_closes) !! 13%nat
    = Some (Fin (sum_range (down_move (closes sample_closes)) 1 13 / Qc_of_Z 14)) /\
  RSI (map Fin sample_closes) !! 13%nat = Some (rsi_ref (closes sample_closes) 13).
Proof. apply RSI_first_value. simpl. lia. Defined.

Lemma step_delta_window (c : nat -> Qc) (i j : nat) (P : Qc -> Prop) :
  P 0 ->
  (forall m, (i - 14 <= m < i)%nat -> P (c (S m) - c m)) ->
  (i - 13 <= j < i - 13 + 14)%nat -> (13 <= i)%nat -> P (step_delta c j).
Proof.
  intros H0 Hw Hj Hi. destruct j as [|j]; [done|]. cbn [step_delta].
  apply Hw. lia.
Qed.

(** X7. Over a flat stretch the RSI is undefined: when the close has not
    moved over the trailing 14 periods, both means are 0 and 0/0 is NaN. *)
Theorem RSI_flat (cs : list Qc) (i : nat) :
  (13 <= i < length cs)%nat ->
  (forall j, (i - 14 <= j < i)%nat -> nth (S j) cs 0 = nth j cs 0) ->
  RSI (map Fin cs) !! i = Some NaN.
Proof.
  intros Hi Hflat. rewrite RSI_Fin, decide_True by lia. f_equal.
  assert (forall j, (i - 13 <= j < i - 13 + 14)%nat ->
            step_delta (closes cs) j = 0) as Hd.
  { intros j Hj. apply (step_delta_window _ i j (fun d => d = 0)); [done| |done|lia].
    intros m Hm. cbn beta. rewrite Hflat by done. ring. }
  unfold rsi_ref, gain_ref, loss_ref.
  rewrite !sum_range_zero.
  - by vm_compute.
  - intros j Hj. unfold down_move. rewrite Hd by done. by destruct (Qc_ltb 0 0).
  - intros j Hj. unfold up_move. rewrite Hd by done. by destruct (Qc_ltb 0 0).
Qed.

Lemma RSI_flat_witness :
  RSI (map Fin (replicate 15 (Qc_of_Z 1900))) !! 14%nat = Some NaN.
Proof.
  apply RSI_flat.
  - simpl. lia.
  - intros j Hj. do 14 (destruct j as [|j]; [reflexivity|]). lia.
Defined.

(** X8. After 14 strictly falling steps there is no gain at all and the
    RSI is exactly 0. *)
Theorem RSI_falling (cs : list Qc) (i : nat) :
  (14 <= i < length cs)%nat ->
  (forall j, (i - 14 <= j < i)%nat -> nth (S j) cs 0 < nth j cs 0) ->
  RSI (map Fin cs) !! i = Some f0.
Proof.
  intros Hi Hdown. rewrite RSI_Fin, decide_True by lia. f_equal.
  assert (forall j, (i - 13 <= j < i - 13 + 14)%nat ->
            step_delta (closes cs) j < 0) as Hd.
  { intros j Hj. destruct j as [|j]; [lia|]. cbn [step_delta].
    apply Qclt_minus_iff.
    replace (0 + - (nth (S j) cs 0 - nth j cs 0))
      with (nth j cs 0 + - nth (S j) cs 0) by ring.
    apply (proj1 (Qclt_minus_iff _ _)). apply Hdown. lia. }
  assert (gain_ref (closes cs) i = 0) as Hg.
  { unfold gain_ref. rewrite sum_range_zero; [unfold Qcdiv; by rewrite Qcmult_0_l|].
    intros j Hj. unfold up_move.
    rewrite (proj2 (Qc_ltb_ge _ _)); [done|]. by apply Qclt_le_weak, Hd. }
  assert (0 < loss_ref (closes cs) i) as Hl.
  { apply Qcmult_pos_pos; [|apply Qc14_inv_pos].
    apply sum_range_pos; [lia|]. intros j Hj. unfold down_move.
    rewrite (proj2 (Qc_ltb_lt _ _)) by by apply Hd.
    apply Qclt_minus_iff. replace (- step_delta (closes cs) j + - 0)
      with (0 + - step_delta (closes cs) j) by ring.
    apply (proj1 (Qclt_minus_iff _ _)). by apply Hd. }
  assert (loss_ref (closes cs) i <> 0) as Hl0.
  { apply not_symmetry, Qclt_not_eq. done. }
  unfold rsi_ref. rewrite Hg, fdiv_Fin by done.
  unfold f1, f100, f0, zf. rewrite Z2Qc_inj_1, Z2Qc_inj_0. cbn [fadd].
  rewrite fdiv_Fin.
  - cbn [fsub fneg fadd]. f_equal; by field.
  - replace (1 + 0 / loss_ref (closes cs) i) with (1 : Qc) by (by field).
    discriminate.
Qed.

Lemma RSI_falling_witness :
  RSI (map Fin (map (fun i => Qc_of_Z (1950 - i)) (seqZ 0 16))) !! 15%nat = Some f0.
Proof.
  apply RSI_falling.
  - simpl. lia.
  - intros j Hj. do 15 (destruct j as [|j]; [vm_compute; reflexivity|]). lia.
Defined.

Lemma nth_map_lt (f : Qc -> Qc) (cs : list Qc) (j : nat) :
  (j < length cs)%nat -> nth j (map f cs) 0 = f (nth j cs 0).
Proof.
  intros Hj. rewrite (nth_indep _ 0 (f 0)) by by rewrite length_map.
  apply map_nth.
Qed.

Lemma step_delta_map (f : Qc -> Qc) (g : Qc -> Qc) (cs : list Qc) (j : nat) :
  g 0 = 0 -> (forall a b, f a - f b = g (a - b)) ->
  (j < length cs)%nat ->
  step_delta (closes (map f cs)) j = g (step_delta (closes cs) j).
Proof.
  intros Hg0 Hg Hj. destruct j as [|j]; [done|]. cbn [step_delta].
  rewrite !nth_map_lt by lia. apply Hg.
Qed.

Lemma rsi_ref_ext (c c' : nat -> Qc) (i : nat) :
  (forall j, (i - 13 <= j < i - 13 + 14)%nat -> step_delta c' j = step_delta c j) ->
  rsi_ref c' i = rsi_ref c i.
Proof.
  intros Hd. unfold rsi_ref, gain_ref, loss_ref.
  rewrite (sum_range_ext (up_move c') (up_move c)),
    (sum_range_ext (down_move c') (down_move c)); [done|..].
  - intros j Hj. unfold down_move. by rewrite Hd.
  - intros j Hj. unfold up_move. by rewrite Hd.
Qed.

Lemma RSI_Fin_ext (cs cs' : list Qc) :
  length cs' = length cs ->
  (forall i, (13 <= i < length cs)%nat ->
     rsi_ref (closes cs') i = rsi_ref (closes cs) i) ->
  RSI (map Fin cs') = RSI (map Fin cs).
Proof.
  intros Hlen Href. apply list_eq. intros i.
  destruct (decide (i < length cs)%nat) as [Hi|Hi].
  - rewrite !RSI_Fin by lia. destruct (decide (13 <= i)%nat); [|done].
    f_equal. apply Href. lia.
  - rewrite !(proj2 (lookup_ge_None _ _)); [done|..].
    + rewrite length_RSI, length_map. lia.
    + rewrite length_RSI, length_map. lia.
Qed.

(** X9. The RSI does not depend on the price level: adding one amount to
    every close leaves the whole RSI column unchanged. *)
Theorem RSI_shift_invariant (cs : list Qc) (d : Qc) :
  RSI (map Fin (map (fun c => c + d) cs)) = RSI (map Fin cs).
Proof.
  apply RSI_Fin_ext; [by rewrite length_map|]. intros i Hi.
  apply rsi_ref_ext. intros j Hj.
  rewrite (step_delta_map _ (fun x => x)); [done|done| |lia].
  intros a b. ring.
Qed.

Lemma Qc_ltb_scale (k a b : Qc) : 0 < k -> Qc_ltb (k * a) (k * b) = Qc_ltb a b.
Proof.
  intros Hk. destruct (Qc_ltb a b) eqn:E.
  - apply Qc_ltb_lt. apply Qc_ltb_lt in E. by apply Qcmult_lt_mono_pos_l.
  - apply Qc_ltb_ge. apply Qc_ltb_ge in E. by apply Qcmult_le_mono_pos_l.
Qed.

Lemma Qc_ltb_0_scale (k a : Qc) : 0 < k -> Qc_ltb 0 (k * a) = Qc_ltb 0 a.
Proof. intros Hk. by rewrite <- (Qc_ltb_scale k 0 a), Qcmult_0_r. Qed.

Lemma Qc_ltb_scale_0 (k a : Qc) : 0 < k -> Qc_ltb (k * a) 0 = Qc_ltb a 0.
Proof. intros Hk. by rewrite <- (Qc_ltb_scale k a 0), Qcmult_0_r. Qed.

Lemma sum_range_scale (k : Qc) (f : nat -> Qc) (lo n : nat) :
  sum_range (fun j => k * f j) lo n = k * sum_range f lo n.
Proof.
  revert lo. induction n as [|n IH]; intros lo; cbn [sum_range]; [ring|].
  rewrite IH. ring.
Qed.

Lemma rsi_ref_scale (c c' : nat -> Qc) (k : Qc) (i : nat) :
  0 < k ->
  (forall j, (i - 13 <= j < i - 13 + 14)%nat ->
     step_delta c' j = k * step_delta c j) ->
  rsi_ref c' i = rsi_ref c i.
Proof.
  intros Hk Hd.
  assert (k <> 0) as Hk0 by (apply not_symmetry, Qclt_not_eq; done).
  assert (gain_ref c' i = k * gain_ref c i) as Hg.
  { unfold gain_ref.
    rewrite (sum_range_ext (up_move c') (fun j => k * up_move c j)).
    - rewrite sum_range_scale. unfold Qcdiv. ring.
    - intros j Hj. unfold up_move. rewrite Hd by done.
      rewrite Qc_ltb_0_scale by done. destruct (Qc_ltb 0 _); ring. }
  assert (loss_ref c' i = k * loss_ref c i) as Hl.
  { unfold loss_ref.
    rewrite (sum_range_ext (down_move c') (fun j => k * down_move c j)).
    - rewrite sum_range_scale. unfold Qcdiv. ring.
    - intros j Hj. unfold down_move. rewrite Hd by done.
      rewrite Qc_ltb_scale_0 by done. destruct (Qc_ltb _ 0); ring. }
  unfold rsi_ref. rewrite Hg, Hl. do 3 f_equal.
  destruct (decide (loss_ref c i = 0)) as [E|E].
  - rewrite E. replace (k * 0) with (0 : Qc) by ring. cbn [fdiv].
    assert (Qc_eqb 0 0 = true) as -> by by apply Qc_eqb_eq.
    cbn [fsign]. by rewrite Qc_ltb_0_scale, Qc_ltb_scale_0 by done.
  - rewrite !fdiv_Fin; [f_equal; by field|done|].
    intros [?|?]%Qcmult_integral; done.
Qed.

(** X10. The RSI does not depend on the price unit: multiplying every
    close by one positive factor leaves the whole RSI column unchanged. *)
Theorem RSI_scale_invariant (cs : list Qc) (k : Qc) :
  0 < k ->
  RSI (map Fin (map (fun c => k * c) cs)) = RSI (map Fin cs).
Proof.
  intros Hk. apply RSI_Fin_ext; [by rewrite length_map|]. intros i Hi.
  apply rsi_ref_scale with k; [done|]. intros j Hj.
  apply (step_delta_map _ (fun x => k * x)); [ring| |lia].
  intros a b. ring.
Qed.

Lemma RSI_scale_invariant_witness :
  RSI (map Fin (map (fun c => Qc_of_Z 100 * c) sample_closes))
  = RSI (map Fin sample_closes).
Proof. apply RSI_scale_invariant. vm_compute. reflexivity. Defined.

Lemma alpha_50_range : 0 < alpha_50 /\ 0 < 1 - alpha_50.
Proof. split; vm_compute; reflexivity. Qed.

Lemma convex_ge (a lo x y : Qc) :
  0 < a -> 0 < 1 - a -> lo <= x -> lo <= y -> lo <= a * x + (1 - a) * y.
Proof.
  intros Ha Hb Hx Hy. replace lo with (a * lo + (1 - a) * lo) by ring.
  apply Qcplus_le_compat; apply Qcmult_le_mono_nonneg_l;
    auto using Qclt_le_weak.
Qed.

Lemma convex_le (a hi x y : Qc) :
  0 < a -> 0 < 1 - a -> x <= hi -> y <= hi -> a * x + (1 - a) * y <= hi.
Proof.
  intros Ha Hb Hx Hy. replace hi with (a * hi + (1 - a) * hi) by ring.
  apply Qcplus_le_compat; apply Qcmult_le_mono_nonneg_l;
    auto using Qclt_le_weak.
Qed.

Lemma nth_elem (cs : list Qc) (j : nat) : (j < length cs)%nat -> nth j cs 0 ∈ cs.
Proof.
  intros Hj. destruct (lookup_lt_is_Some_2 cs j Hj) as [x Hx].
  rewrite (nth_lookup_Some _ _ 0 _ Hx). by apply list_elem_of_lookup_2 with j.
Qed.

(** X11. The EMA never leaves the range of the prices: when every close
    lies between [lo] and [hi], so does every value of the EMA_50 column. *)
Theorem EMA_50_within_range (cs : list Qc) (lo hi : Qc) (i : nat) (e : float) :
  (forall c, c ∈ cs -> lo <= c <= hi) ->
  EMA_50 (map Fin cs) !! i = Some e ->
  exists q, e = Fin q /\ lo <= q <= hi.
Proof.
  intros Hrange He.
  assert (i < length cs)%nat as Hi.
  { apply lookup_lt_Some in He. by rewrite length_EMA_50, length_map in He. }
  rewrite EMA_50_Fin in He by done. injection He as <-.
  eexists; split; [reflexivity|].
  destruct alpha_50_range as [Ha Hb].
  induction i as [|i IH]; cbn [ema_ref].
  - apply Hrange, nth_elem. done.
  - destruct (Hrange (nth (S i) cs 0)) as [H1 H2]; [by apply nth_elem|].
    destruct IH as [H3 H4]; [lia|]. split.
    + by apply convex_ge.
    + by apply convex_le.
Qed.

Lemma EMA_50_within_range_witness :
  exists q, Fin (ema_ref alpha_50 (closes sample_closes) 9) = Fin q /\
            Qc_of_Z 1901 <= q <= Qc_of_Z 1931.
Proof.
  apply (EMA_50_within_range sample_closes (Qc_of_Z 1901) (Qc_of_Z 1931) 9).
  - intros c Hc. unfold sample_closes, sample_prices in Hc. cbn in Hc.
    repeat (apply elem_of_cons in Hc as [->|Hc];
            [split; vm_compute; discriminate|]).
    by apply elem_of_nil in Hc.
  - apply EMA_50_Fin. simpl. lia.
Defined.

(** X12. While the closes do not fall, the EMA does not fall either and
    stays at or below the close: in a rising market the price is never
    under its EMA_50. *)
Theorem EMA_50_lags_rising (cs : list Qc) (i : nat) :
  (forall j, (S j < length cs)%nat -> nth j cs 0 <= nth (S j) cs 0) ->
  (i < length cs)%nat ->
  exists e, EMA_50 (map Fin cs) !! i = Some (Fin e) /\
    e <= nth i cs 0 /\
    forall e', EMA_50 (map Fin cs) !! S i = Some e' ->
      exists q, e' = Fin q /\ e <= q.
Proof.
  intros Hup Hi. destruct alpha_50_range as [Ha Hb].
  assert (forall n, (n < length cs)%nat ->
            ema_ref alpha_50 (closes cs) n <= nth n cs 0) as Hle.
  { induction n as [|n IH]; intros Hn; cbn [ema_ref]; [apply Qcle_refl|].
    apply convex_le; [done|done|apply Qcle_refl|].
    apply Qcle_trans with (nth n cs 0); [apply IH; lia | by apply Hup]. }
  exists (ema_ref alpha_50 (closes cs) i). split_and!.
  - by apply EMA_50_Fin.
  - by apply Hle.
  - intros e' He'.
    assert (S i < length cs)%nat as HSi.
    { apply lookup_lt_Some in He'. by rewrite length_EMA_50, length_map in He'. }
    rewrite EMA_50_Fin in He' by done. injection He' as <-.
    eexists; split; [reflexivity|]. cbn [ema_ref].
    apply convex_ge; [done|done| |apply Qcle_refl].
    apply Qcle_trans with (nth i cs 0); [by apply Hle | by apply Hup].
Qed.

Lemma EMA_50_lags_rising_witness :
  exists e, EMA_50 (map Fin rising_closes) !! 7%nat = Some (Fin e) /\
    e <= nth 7 rising_closes 0 /\
    forall e', EMA_50 (map Fin rising_closes) !! 8%nat = Some e' ->
      exists q, e' = Fin q /\ e <= q.
Proof.
  apply (EMA_50_lags_rising rising_closes 7).
  - intros j Hj. do 15 (destruct j as [|j]; [vm_compute; discriminate|]).
    simpl in Hj. lia.
  - simpl. lia.
Defined.

End IndicatorsMore.

(** * Further properties of the output table *)

Section TableMore.
Local Open Scope Qc_scope.

Lemma with_indicators_ts (d4 : list Bar) :
  map r_ts (with_indicators d4) = map ts d4.
Proof.
  apply list_eq. intros i. rewrite !list_lookup_fmap.
  destruct (with_indicators d4 !! i) as [r|] eqn:Hr.
  - apply with_indicators_lookup in Hr as (b & x & e & Hb & _ & _ & ->).
    by rewrite Hb.
  - apply lookup_ge_None in Hr. rewrite length_with_indicators in Hr.
    apply lookup_ge_None in Hr. by rewrite Hr.
Qed.

Lemma tail_map {A B} (f : A -> B) (n : nat) (l : list A) :
  tail n (map f l) = map f (tail n l).
Proof. unfold tail. by rewrite length_map, fmap_drop. Qed.

Lemma final_df_ts (d4 : list Bar) :
  map r_ts (final_df d4) = tail 12 (map ts d4).
Proof.
  unfold final_df. rewrite <- list_fmap_compose.
  rewrite <- with_indicators_ts, tail_map. done.
Qed.

(** X13. The output table shows the most recent windows, oldest first:
    its timestamps are the last 12 timestamps of the resampled frame, in
    strictly increasing order, and every resampled row left out of the
    table is older than every row in it. *)
Theorem final_df_latest (history : list Bar) :
  let stamps := map r_ts (final_df (data_4h history)) in
  stamps = tail 12 (map ts (data_4h history)) /\
  StronglySorted Z.lt stamps /\
  forall row t, row ∈ data_4h history -> ts row ∉ stamps -> t ∈ stamps ->
    (ts row < t)%Z.
Proof.
  intros stamps.
  assert (stamps = tail 12 (map ts (data_4h history))) as Hst
    by apply final_df_ts.
  assert (StronglySorted Z.lt (map ts (data_4h history))) as Hsorted.
  { apply StronglySorted_fmap with (R1 := fun a b => (ts a < ts b)%Z); [done|].
    unfold data_4h, dropna, resample_4h. apply StronglySorted_filter_keep.
    rewrite <- list_fmap_compose.
    apply StronglySorted_fmap with (R1 := Z.lt); [|apply bins_sorted].
    intros j k Hjk. cbn. unfold freq_4h. lia. }
  unfold tail in Hst.
  rewrite <- (take_drop (length (map ts (data_4h history)) - 12)
               (map ts (data_4h history))) in Hsorted.
  rewrite <- Hst in Hsorted. split_and!.
  - done.
  - by apply StronglySorted_app_1_r in Hsorted.
  - intros row t Hrow Hout Ht.
    apply (StronglySorted_app_1_elem_of _ _ _ _ _ Hsorted); [|done].
    assert (ts row ∈ map ts (data_4h history)) as Hin
      by (apply list_elem_of_fmap; eauto).
    rewrite <- (take_drop (length (map ts (data_4h history)) - 12)) in Hin.
    rewrite <- Hst in Hin. apply elem_of_app in Hin as [?|?]; done.
Qed.

(** X14. With at least 25 resampled rows the table is full and past the
    warm-up: it has exactly 12 rows, each taken from a resampled row at
    position 13 or later, whose RSI before rounding is the reference value
    of that position. *)
Theorem final_df_past_warm_up (history : list Bar) (cs : list Qc) :
  map Close (data_4h history) = map Fin cs ->
  (25 <= length cs)%nat ->
  length (final_df (data_4h history)) = 12%nat /\
  forall i r, final_df (data_4h history) !! i = Some r ->
    exists r0,
      with_indicators (data_4h history) !! (length cs - 12 + i)%nat = Some r0 /\
      r_ts r = r_ts r0 /\
      (13 <= length cs - 12 + i)%nat /\
      r_RSI r0 = rsi_ref (closes cs) (length cs - 12 + i).
Proof.
  intros Hcs Hlen.
  assert (length (data_4h history) = length cs) as Hd4.
  { by rewrite <- (length_map Close), Hcs, length_map. }
  pose proof (length_final_df (data_4h history)) as Hout. rewrite Hd4 in Hout.
  split; [lia|]. intros i r Hr.
  assert (i < 12)%nat as Hi by (apply lookup_lt_Some in Hr; lia).
  destruct (final_df_lookup _ _ _ Hr) as (r0 & Hr0 & ->).
  rewrite Hd4, Hout in Hr0.
  replace (length cs - 12 `min` length cs + i)%nat
    with (length cs - 12 + i)%nat in Hr0 by lia.
  exists r0. split; [done|].
  apply with_indicators_lookup in Hr0 as (b & x & e & _ & Hx & _ & ->).
  rewrite Hcs, RSI_Fin in Hx by lia. rewrite decide_True in Hx by lia.
  injection Hx as <-. cbn [round_row r_ts r_RSI].
  split_and!; [done|lia|done].
Qed.

Lemma rint_Z (z : Z) : rint (Qc_of_Z z) = z.
Proof.
  unfold rint. change (Qfloor (Qc_of_Z z)) with (Qfloor (inject_Z z)).
  rewrite Qfloor_Z. replace (Qc_of_Z z - Qc_of_Z z) with (0 : Qc) by ring.
  reflexivity.
Qed.

Lemma round2_idempotent (x : float) : round2 (round2 x) = round2 x.
Proof.
  destruct x as [q| | |]; try reflexivity. cbn [round2]. do 2 f_equal.
  set (z := rint (q * Qc_of_Z 100)).
  replace (Qc_of_Z z / Qc_of_Z 100 * Qc_of_Z 100) with (Qc_of_Z z).
  - by rewrite rint_Z.
  - field. apply not_symmetry, Qclt_not_eq, Qc100_pos.
Qed.

(** X15. The table is stable under rounding: rounding its fields to 2
    decimals once more changes nothing. *)
Theorem final_df_round_stable (d4 : list Bar) :
  map round_row (final_df d4) = final_df d4.
Proof.
  unfold final_df. rewrite <- list_fmap_compose. apply list_fmap_ext.
  intros i r _. unfold round_row. cbn. by rewrite !round2_idempotent.
Qed.

Lemma final_df_past_warm_up_witness :
  length (final_df (data_4h long_history)) = 12%nat /\
  forall i r, final_df (data_4h long_history) !! i = Some r ->
    exists r0,
      with_indicators (data_4h long_history) !! (length long_closes - 12 + i)%nat
        = Some r0 /\
      r_ts r = r_ts r0 /\
      (13 <= length long_closes - 12 + i)%nat /\
      r_RSI r0 = rsi_ref (closes long_closes) (length long_closes - 12 + i).
Proof.
  apply (final_df_past_warm_up long_history long_closes).
  - vm_compute. reflexivity.
  - simpl. lia.
Defined.

End TableMore.

(** * Further properties of the two tools *)

Section ToolsMore.

Lemma price_run_nonempty
    (yf_history : string -> string -> string -> outcome (list Bar))
    (to_string : list IndRow -> string) (query : string) (h : list Bar) :
  yf_history "GC=F" "1mo" "1h" = Return h -> h <> [] ->
  XAUPriceFetchTool._run no_fault yf_history to_string query
  = ([price_log; price_fetch; EvResample; EvIndicators; EvToString],
     Return (to_string (final_df (data_4h h)))).
Proof.
  intros Hfetch Hne. unfold XAUPriceFetchTool._run. rewrite Hfetch.
  destruct h as [|b h]; [done|]. reflexivity.
Qed.

(** X16. A fetched history that is not empty but lacks one of the four
    price columns in every bar is not reported as an error: every window
    is dropped, all three stages still run (none of them raising), and the
    tool returns the rendering of the empty table. *)
Theorem missing_column_renders_empty_table
    (yf_history : string -> string -> string -> outcome (list Bar))
    (to_string : list IndRow -> string) (query : string) (h : list Bar) :
  yf_history "GC=F" "1mo" "1h" = Return h ->
  h <> [] ->
  (forall b, b ∈ h -> Open b = NaN) \/ (forall b, b ∈ h -> High b = NaN) \/
  (forall b, b ∈ h -> Low b = NaN) \/ (forall b, b ∈ h -> Close b = NaN) ->
  let run := XAUPriceFetchTool._run no_fault yf_history to_string query in
  result run = Return (to_string []) /\
  trace run = [price_log; price_fetch; EvResample; EvIndicators; EvToString].
Proof.
  intros Hfetch Hne Hmiss run. unfold run.
  rewrite (price_run_nonempty _ _ _ h) by done.
  rewrite (data_4h_column_missing _ Hmiss). split; reflexivity.
Qed.

Lemma missing_column_renders_empty_table_witness :
  let run := XAUPriceFetchTool._run no_fault (fun _ _ _ => Return no_open_history)
               (fun _ => "Empty DataFrame") "gold" in
  result run = Return "Empty DataFrame" /\
  trace run = [price_log; price_fetch; EvResample; EvIndicators; EvToString].
Proof.
  apply (missing_column_renders_empty_table
           (fun _ _ _ => Return no_open_history) (fun _ => "Empty DataFrame")
           "gold" no_open_history).
  - reflexivity.
  - discriminate.
  - left. intros b Hb. unfold no_open_history in Hb.
    repeat (apply elem_of_cons in Hb as [->|Hb]; [reflexivity|]).
    by apply elem_of_nil in Hb.
Defined.

Lemma string_app_cons (x : ascii) (a b : string) :
  String x a +:+ b = String x (a +:+ b).
Proof. reflexivity. Qed.

Lemma string_app_nil_l (a : string) : "" +:+ a = a.
Proof. reflexivity. Qed.

Lemma string_app_assoc (a b c : string) : (a +:+ b) +:+ c = a +:+ (b +:+ c).
Proof.
  induction a as [|x a IH]; [done|]. by rewrite !string_app_cons, IH.
Qed.

Lemma string_app_nil_r (a : string) : a +:+ "" = a.
Proof. induction a as [|x a IH]; [done|]. by rewrite string_app_cons, IH. Qed.

Lemma prefix_app (n s : string) : String.prefix n (n +:+ s) = true.
Proof.
  induction n as [|x n IH]; [by destruct s|].
  rewrite string_app_cons. cbn [String.prefix].
  by destruct (Ascii.ascii_dec x x).
Qed.

Lemma contains_prefix (n h : string) : String.prefix n h = true -> contains n h = true.
Proof. intros H. destruct h; cbn [contains]; by rewrite H. Qed.

Lemma contains_middle (pre n post : string) :
  contains n (pre +:+ n +:+ post) = true.
Proof.
  induction pre as [|x pre IH].
  - rewrite string_app_nil_l. apply contains_prefix, prefix_app.
  - rewrite string_app_cons. cbn [contains]. rewrite IH. apply orb_true_r.
Qed.

Lemma concat_cons (sep x : string) (xs : list string) :
  xs <> [] -> String.concat sep (x :: xs) = x +:+ sep +:+ String.concat sep xs.
Proof. by destruct xs. Qed.

Lemma concat_holds (sep r : string) (rs : list string) :
  r ∈ rs -> exists pre post, String.concat sep rs = pre +:+ r +:+ post.
Proof.
  induction rs as [|x rs IH]; [by intros ?%elem_of_nil|].
  intros [->|Hr]%elem_of_cons.
  - destruct rs as [|y rs].
    + exists "", "". by rewrite string_app_nil_l, string_app_nil_r.
    + exists "", (sep +:+ String.concat sep (y :: rs)).
      by rewrite concat_cons, string_app_nil_l.
  - destruct (IH Hr) as (pre & post & E).
    assert (rs <> []) as Hne by (intros ->; by apply elem_of_nil in Hr).
    exists (x +:+ sep +:+ pre), post.
    by rewrite concat_cons, E, !string_app_assoc.
Qed.

Lemma news_run_results
    (ddgs_text : string -> nat -> string -> outcome (list (gmap string string)))
    (query : string) (rs : list (gmap string string)) :
  ddgs_text query 3%nat "d" = Return rs -> rs <> [] ->
  result (NewsSearchTool._run no_fault ddgs_text query)
  = Return (String.concat nl (map NewsSearchTool.record rs)).
Proof.
  intros Hsearch Hne. unfold NewsSearchTool._run. cbn. rewrite Hsearch.
  unfold try_except, result. cbn.
  rewrite bool_decide_eq_false_2; [done|]. by destruct rs.
Qed.

(** X19. No search result is lost: when the provider returns results (and
    no stage raises), the text the news tool returns contains the record
    of every one of them, each starting with "NEWS TITLE: ". *)
Theorem news_run_keeps_every_record
    (ddgs_text : string -> nat -> string -> outcome (list (gmap string string)))
    (query : string) (rs : list (gmap string string)) (r : gmap string string) :
  ddgs_text query 3%nat "d" = Return rs ->
  r ∈ rs ->
  exists text,
    result (NewsSearchTool._run no_fault ddgs_text query) = Return text /\
    contains (NewsSearchTool.record r) text = true /\
    String.prefix "NEWS TITLE: " (NewsSearchTool.record r) = true.
Proof.
  intros Hsearch Hr. eexists. split_and!.
  - apply news_run_results; [done|]. intros ->. by apply elem_of_nil in Hr.
  - destruct (concat_holds nl (NewsSearchTool.record r)
                (map NewsSearchTool.record rs)) as (pre & post & ->).
    + apply list_elem_of_fmap. eauto.
    + apply contains_middle.
  - unfold NewsSearchTool.record. apply prefix_app.
Qed.

Lemma news_run_keeps_every_record_witness :
  exists text,
    result (NewsSearchTool._run no_fault
              (fun _ _ _ => Return [ {["title" := "Gold rallies"]};
                                     {["body" := "Fed holds rates"]} ])
              "gold") = Return text /\
    contains (NewsSearchTool.record {["body" := "Fed holds rates"]}) text = true /\
    String.prefix "NEWS TITLE: "
      (NewsSearchTool.record {["body" := "Fed holds rates"]}) = true.
Proof.
  apply (news_run_keeps_every_record
           (fun _ _ _ => Return [ {["title" := "Gold rallies"]};
                                  {["body" := "Fed holds rates"]} ])
           "gold" [ {["title" := "Gold rallies"]}; {["body" := "Fed holds rates"]} ]).
  - reflexivity.
  - right. left.
Defined.

(** X20. The sentence for an empty search is returned for an empty search
    only: when the provider returns its results (and no stage raises), the
    news tool answers with that sentence exactly when there are none. *)
Theorem news_run_sentinel_iff_empty
    (ddgs_text : string -> nat -> string -> outcome (list (gmap string string)))
    (query : string) (rs : list (gmap string string)) :
  ddgs_text query 3%nat "d" = Return rs ->
  (result (NewsSearchTool._run no_fault ddgs_text query) = Return no_news
   <-> rs = []).
Proof.
  intros Hsearch. split.
  - intros H. destruct rs as [|r rs]; [done|]. exfalso.
    rewrite (news_run_results _ _ (r :: rs)) in H by done.
    injection H as H. cbn [map] in H.
    destruct (map NewsSearchTool.record rs) as [|x xs].
    + cbn in H. discriminate H.
    + rewrite concat_cons in H by done. cbn in H. discriminate H.
  - intros ->. unfold NewsSearchTool._run. cbn. rewrite Hsearch. reflexivity.
Qed.

Lemma news_run_sentinel_iff_empty_witness :
  result (NewsSearchTool._run no_fault (fun _ _ _ => Return []) "gold")
    = Return no_news
  <-> @nil (gmap string string) = [].
Proof.
  apply (news_run_sentinel_iff_empty (fun _ _ _ => Return []) "gold" []).
  reflexivity.
Defined.

End ToolsMore.

(** * The order of the fetched rows *)

Section RowOrder.

Lemma sort_index_unique (h1 h2 : list Bar) :
  h1 ≡ₚ h2 ->
  (forall a b, a ∈ h1 -> b ∈ h1 -> ts a = ts b -> a = b) ->
  sort_index h1 = sort_index h2.
Proof.
  intros Hperm Hts.
  apply (StronglySorted_unique_strong by_ts).
  - intros a b Ha Hb Hab Hba. rewrite sort_index_perm in Ha, Hb.
    rewrite <- Hperm in Hb.
    apply Hts; [done|done|]. unfold by_ts in *. lia.
  - apply sort_index_sorted.
  - apply sort_index_sorted.
  - by rewrite !sort_index_perm.
Qed.

(** X21. The table does not depend on the order in which the provider
    lists the bars: two histories holding the same bars, no two of them
    with the same timestamp, give the same resampled frame and the same
    output table. *)
Theorem row_order_irrelevant (h1 h2 : list Bar) :
  h1 ≡ₚ h2 ->
  (forall a b, a ∈ h1 -> b ∈ h1 -> ts a = ts b -> a = b) ->
  data_4h h1 = data_4h h2 /\
  final_df (data_4h h1) = final_df (data_4h h2).
Proof.
  intros Hperm Hts.
  assert (data_4h h1 = data_4h h2) as E.
  { unfold data_4h, resample_4h, bins, group.
    by rewrite (sort_index_unique h1 h2). }
  by rewrite E.
Qed.

Lemma row_order_irrelevant_witness :
  data_4h shuffled_history = data_4h ordered_history /\
  final_df (data_4h shuffled_history) = final_df (data_4h ordered_history).
Proof.
  apply (row_order_irrelevant shuffled_history ordered_history).
  - unfold shuffled_history, ordered_history.
    etrans; [apply Permutation_swap|]. apply Permutation_skip, Permutation_swap.
  - intros a b Ha Hb. unfold shuffled_history in Ha, Hb.
    repeat (apply elem_of_cons in Ha as [->|Ha]);
      try (by apply elem_of_nil in Ha);
      repeat (apply elem_of_cons in Hb as [->|Hb]);
      try (by apply elem_of_nil in Hb);
      intros H; first [reflexivity | discriminate H].
Defined.

End RowOrder.
